(** * Duplicate detection and dataset consolidation: [deduplicate.py]

  A shallow embedding of [organize_duplicates] and [has_image_files],
  and the properties of the exact-duplicate pass, the consolidated
  numbering, the similarity clusterer and the index files.

  Python [str] and [bytes] values are Rocq strings (sequences of 8-bit
  characters); Python sets are [gset]; the audit directory is a finite map
  from paths to file contents; the two insertion-ordered dictionaries of
  the source ([hashes], [file_mapping]) are association lists, because the
  code iterates over them in insertion order. *)

From Stdlib Require Import Ascii DecimalString DecimalNat.
From stdpp Require Import gmap strings list.

#[local] Set Warnings "-clear-no-such-hyp".


(** ** Strings *)

Module Str.

(** [s[:n]] and [s[n:]] for a non-negative [n]. *)
Fixpoint take (n : nat) (s : string) : string :=
  match n, s with
  | S n', String a s' => String a (take n' s')
  | _, _ => ""
  end.

Fixpoint drop (n : nat) (s : string) : string :=
  match n, s with
  | S n', String _ s' => drop n' s'
  | _, _ => s
  end.

(** [s.rfind(c)]: the highest index of [c] in [s], [-1] when there is none. *)
Fixpoint rfind (c : ascii) (s : string) : Z :=
  match s with
  | "" => -1
  | String a s' =>
      let r := rfind c s' in
      if bool_decide (0 ≤ r)%Z then (r + 1)%Z
      else if bool_decide (a = c) then 0%Z else (-1)%Z
  end.

Definition startswith (c : ascii) (s : string) : bool :=
  match s with
  | String a _ => bool_decide (a = c)
  | "" => false
  end.

Fixpoint endswith (c : ascii) (s : string) : bool :=
  match s with
  | "" => false
  | String a "" => bool_decide (a = c)
  | String _ s' => endswith c s'
  end.

Fixpoint all_char (c : ascii) (s : string) : bool :=
  match s with
  | "" => true
  | String a s' => bool_decide (a = c) && all_char c s'
  end.

Fixpoint mem (c : ascii) (s : string) : bool :=
  match s with
  | "" => false
  | String a s' => bool_decide (a = c) || mem c s'
  end.

(** [str.lower()] on the ASCII letters; every other byte is kept. The
    only characters outside ASCII that Python lowers to an ASCII letter
    do not occur in the extensions this program compares with. *)
Definition lower_char (a : ascii) : ascii :=
  let n := Ascii.N_of_ascii a in
  if bool_decide (65 ≤ n)%N && bool_decide (n ≤ 90)%N
  then Ascii.ascii_of_N (n + 32) else a.

Fixpoint lower (s : string) : string :=
  match s with
  | "" => ""
  | String a s' => String (lower_char a) (lower s')
  end.

Fixpoint replicate (n : nat) (c : ascii) : string :=
  match n with
  | 0 => ""
  | S n' => String c (replicate n' c)
  end.

Fixpoint concat (l : list string) : string :=
  match l with
  | [] => ""
  | s :: l' => s +:+ concat l'
  end.

End Str.

(** ** [os.path] on a POSIX system *)

Module OsPath.

Definition sep : ascii := "/"%char.
Definition extsep : ascii := "."%char.

(** [os.path.join(a, b)] *)
Definition join (a b : string) : string :=
  if Str.startswith sep b then b
  else if bool_decide (a = "") || Str.endswith sep a then a +:+ b
  else a +:+ "/" +:+ b.

(** [os.path.basename(p)]: [p[p.rfind('/') + 1:]] *)
Definition basename (p : string) : string :=
  Str.drop (Z.to_nat (Str.rfind sep p + 1)) p.

(** [os.path.splitext(p)]: the extension starts at the last dot of the
    last component, unless that component has only dots before it. *)
Definition splitext (p : string) : string * string :=
  let sepIndex := Str.rfind sep p in
  let dotIndex := Str.rfind extsep p in
  let filenameIndex := (sepIndex + 1)%Z in
  if bool_decide (sepIndex < dotIndex)%Z
     && negb (Str.all_char extsep
                (Str.take (Z.to_nat (dotIndex - filenameIndex))
                   (Str.drop (Z.to_nat filenameIndex) p)))
  then (Str.take (Z.to_nat dotIndex) p, Str.drop (Z.to_nat dotIndex) p)
  else (p, "").

(** An extension is empty or starts with a dot. *)
Definition is_ext (e : string) : bool :=
  match e with
  | "" => true
  | String a _ => bool_decide (a = OsPath.extsep)
  end.

End OsPath.

(** ** Formatting of integers *)

Module Fmt.

(** [str(n)] and the [{n}] of an f-string, for a natural number *)
Definition dec (n : nat) : string :=
  NilEmpty.string_of_uint (Nat.to_uint n).

(** [f"{n:05d}"]: decimal, padded with zeros on the left to width 5 *)
Definition d05 (n : nat) : string :=
  let s := dec n in
  Str.replicate (5 - String.length s) "0"%char +:+ s.

Definition is_digit (a : ascii) : bool :=
  let n := Ascii.N_of_ascii a in
  bool_decide (48 ≤ n)%N && bool_decide (n ≤ 57)%N.

Fixpoint all_digits (s : string) : bool :=
  match s with
  | "" => true
  | String a s' => is_digit a && all_digits s'
  end.

(** The number that a string of decimal digits writes *)
Definition value (s : string) : option nat :=
  Nat.of_uint <$> NilEmpty.uint_of_string s.

End Fmt.


(** ** Dictionaries in insertion order

    [hashes] and [file_mapping] are Python dictionaries that the code walks
    in insertion order: an association list in which a key occurs once, a
    new key goes to the end and an assignment to a present key keeps its
    place. *)

Module Dict.

Fixpoint get {V : Type} (k : string) (d : list (string * V)) : option V :=
  match d with
  | [] => None
  | (k', v) :: d' => if decide (k' = k) then Some v else get k d'
  end.

Fixpoint set {V : Type} (k : string) (v : V) (d : list (string * V))
  : list (string * V) :=
  match d with
  | [] => [(k, v)]
  | (k', v') :: d' =>
      if decide (k' = k) then (k, v) :: d' else (k', v') :: set k v d'
  end.

Definition mem {V : Type} (k : string) (d : list (string * V)) : bool :=
  bool_decide (is_Some (get k d)).

End Dict.

(** ** What a run reads from outside

    The source tree is read only, and the audit directory that the run
    writes is a separate store (the pipeline calls [organize_duplicates]
    with two sibling directories), so a source file has the same bytes
    whenever the run opens it. [Image.open] opens the file as [open] does,
    so it raises when [open] raises, and what PIL decodes is a function of
    the bytes. *)

Class World := {
  (** [open(path, 'rb').read()], [None] when opening or reading raises *)
  read_bytes : string → option string;
  (** [hashlib.md5(data).hexdigest()] *)
  md5_hexdigest : string → string;
  (** [imagehash.phash] of the image that PIL decodes from the bytes, a
      64-bit fingerprint; [None] when decoding raises *)
  phash : string → option N;
}.

(** [os.walk(source_directory)]: one [(root, files)] per directory *)
Definition tree : Type := list (string * list string).

(** The audit directory: path ↦ content of the file *)
Abbreviation store := (gmap string string).

Definition nl : string := String "010"%char "".

(** The file paths in the order of the two nested loops over the walk *)
Definition walk_paths (t : tree) : list string :=
  t ≫= λ '(root, files), OsPath.join root <$> files.

Definition walk_files (t : tree) : list string := t ≫= snd.

(** ** File operations on the audit directory

    The store holds the files; the directories that [os.makedirs] creates
    hold nothing and are left out, as are the messages of the logger other
    than the paths of the warnings of the first pass. A failure to write is
    not modelled. *)

Definition path_exists (path : string) (fs : store) : bool :=
  bool_decide (is_Some (fs !! path)).

(** [open(path, "w")] followed by the writes of [text] *)
Definition write_text (path text : string) (fs : store) : store :=
  <[path := text]> fs.

(** [open(path, "a")] followed by the writes of [text] *)
Definition append_text (path text : string) (fs : store) : store :=
  <[path := default "" (fs !! path) +:+ text]> fs.

(** [shutil.copy2(src, dst)]: raises when the source cannot be read *)
Definition copy2 `{World} (src dst : string) (fs : store) : option store :=
  data ← read_bytes src;
  Some (<[dst := data]> fs).

(** ** First pass: exact duplicates *)

(** The body of the hashing loop: the digest of a readable file is looked
    up in [hashes] and the path appended to its list; a file that cannot be
    read is logged and skipped. The second component collects the paths of
    the warnings. *)
Definition hash_file `{World}
    (acc : list (string * list string) * list string) (filepath : string)
  : list (string * list string) * list string :=
  let '(hashes, skipped) := acc in
  match read_bytes filepath with
  | Some data =>
      let file_hash := md5_hexdigest data in
      let hashes :=
        if Dict.mem file_hash hashes then hashes
        else Dict.set file_hash [] hashes in
      (Dict.set file_hash
         (default [] (Dict.get file_hash hashes) ++ [filepath]) hashes,
       skipped)
  | None => (hashes, skipped ++ [filepath])
  end.

Definition find_exact `{World} (t : tree)
  : list (string * list string) * list string :=
  fold_left hash_file (walk_paths t) ([], []).

(** The digest that the first pass computes for a path, and the paths of
    a list that have a given digest, in the order of the list. *)
Definition digest `{World} (filepath : string) : option string :=
  md5_hexdigest <$> read_bytes filepath.

Definition with_digest `{World} (k : string) (l : list string) : list string :=
  filter (λ p, digest p = Some k) l.

(** [[paths for paths in hashes.values() if len(paths) > 1]] *)
Definition exact_dup_groups_of (hashes : list (string * list string))
  : list (list string) :=
  filter (λ paths, 1 < length paths) hashes.*2.

(** ** Copies of the members of a group

    The loop over the members of an exact group and the one over the
    members of a similar group are the same code but for the suffix
    ([_dup] or [_similar]) of a renamed copy. *)

Definition member_dest (suffix group_dir : string) (j : nat)
    (filepath : string) (fs : store) : string :=
  let filename := OsPath.basename filepath in
  let dest_path := OsPath.join group_dir filename in
  if path_exists dest_path fs then
    let '(name, ext) := OsPath.splitext filename in
    OsPath.join group_dir (name +:+ suffix +:+ Fmt.dec j +:+ ext)
  else dest_path.

Definition copy_member `{World} (suffix group_dir : string) (j : nat)
    (filepath : string) (fs : store) : option store :=
  let dest_path := member_dest suffix group_dir j filepath fs in
  fs ← copy2 filepath dest_path fs;
  Some (append_text (OsPath.join group_dir "original_paths.txt")
          (OsPath.basename dest_path +:+ " => " +:+ filepath +:+ nl) fs).

(** [for j, filepath in enumerate(group)], entered with [j] *)
Fixpoint copy_members `{World} (suffix group_dir : string) (j : nat)
    (group : list string) (fs : store) : option store :=
  match group with
  | [] => Some fs
  | filepath :: rest =>
      fs ← copy_member suffix group_dir j filepath fs;
      copy_members suffix group_dir (S j) rest fs
  end.

(** ** The consolidated directory *)

Record state := State {
  fs : store;
  processed_hashes : gset string;
  file_counter : nat;
  file_mapping : list (string * list string);
}.

Record dirs := Dirs {
  exact_dup_dir : string;
  similar_files_dir : string;
  consolidated_dir : string;
}.

Definition dirs_of (output_base_dir : string) : dirs :=
  {| exact_dup_dir := OsPath.join output_base_dir "exact_duplicates";
     similar_files_dir := OsPath.join output_base_dir "similar_files";
     consolidated_dir := OsPath.join output_base_dir "consolidated_files" |}.

Definition duplicates_index_block (new_filename group_hash : string)
    (group : list string) : string :=
  "File: " +:+ new_filename +:+ nl +:+
  "Hash: " +:+ group_hash +:+ nl +:+
  "Duplicates:" +:+ nl +:+
  Str.concat ((λ path, "  - " +:+ path +:+ nl) <$> group) +:+
  nl.

(** The body of [for i, group in enumerate(exact_dup_groups)]. Reading
    [group[0]] again and the copies are outside any [try]: [None] is an
    exception that ends the run. *)
Definition process_group `{World} (d : dirs) (i : nat) (group : list string)
    (s : state) : option state :=
  let group_dir := OsPath.join (exact_dup_dir d) ("group_" +:+ Fmt.dec (i + 1)) in
  first_file ← head group;
  data ← read_bytes first_file;
  let group_hash := md5_hexdigest data in
  let original_ext := (OsPath.splitext first_file).2 in
  let new_filename := Fmt.d05 (file_counter s) +:+ original_ext in
  let consolidated_dest := OsPath.join (consolidated_dir d) new_filename in
  fs1 ← copy2 first_file consolidated_dest (fs s);
  let fs2 :=
    append_text (OsPath.join (consolidated_dir d) "duplicates_index.txt")
      (duplicates_index_block new_filename group_hash group) fs1 in
  fs3 ← copy_members "_dup" group_dir 0 group fs2;
  Some {| fs := fs3;
          processed_hashes := {[group_hash]} ∪ processed_hashes s;
          file_counter := file_counter s + 1;
          file_mapping := Dict.set consolidated_dest group (file_mapping s) |}.

Fixpoint process_groups `{World} (d : dirs) (i : nat)
    (groups : list (list string)) (s : state) : option state :=
  match groups with
  | [] => Some s
  | group :: rest =>
      s ← process_group d i group s;
      process_groups d (S i) rest s
  end.

(** The body of [for file_hash, paths in hashes.items()] *)
Definition copy_unique `{World} (d : dirs) (entry : string * list string)
    (s : state) : option state :=
  let '(file_hash, paths) := entry in
  if bool_decide (length paths = 1)
     && bool_decide (file_hash ∉ processed_hashes s) then
    filepath ← head paths;
    let original_ext := (OsPath.splitext filepath).2 in
    let new_filename := Fmt.d05 (file_counter s) +:+ original_ext in
    let dest_path := OsPath.join (consolidated_dir d) new_filename in
    fs1 ← copy2 filepath dest_path (fs s);
    Some {| fs := fs1;
            processed_hashes := {[file_hash]} ∪ processed_hashes s;
            file_counter := file_counter s + 1;
            file_mapping := Dict.set dest_path [filepath] (file_mapping s) |}
  else Some s.

Fixpoint copy_uniques `{World} (d : dirs)
    (hashes : list (string * list string)) (s : state) : option state :=
  match hashes with
  | [] => Some s
  | entry :: rest =>
      s ← copy_unique d entry s;
      copy_uniques d rest s
  end.

Definition master_index_text (file_mapping : list (string * list string))
  : string :=
  "# Master File Index" +:+ nl +:+
  "# New Filename => Original File(s)" +:+ nl +:+ nl +:+
  Str.concat
    ((λ '(new_file, original_files),
        OsPath.basename new_file +:+ ":" +:+ nl +:+
        Str.concat ((λ orig, "  - " +:+ orig +:+ nl) <$> original_files) +:+
        nl)
       <$> file_mapping).

(** ** Second pass: perceptually similar images *)

Definition image_extensions : gset string :=
  {[ ".jpg"; ".jpeg"; ".png"; ".gif"; ".bmp"; ".tiff"; ".webp" ]}.

(** [has_image_files(directory)]: the loops return [True] at the first
    file name whose lowered extension is in [image_extensions]. *)
Definition has_image_files (t : tree) : bool :=
  existsb
    (λ file, bool_decide (Str.lower (OsPath.splitext file).2 ∈ image_extensions))
    (walk_files t).

(** [h1 - h2] of [imagehash]: the number of bits in which two fingerprints
    of the same size differ. *)
Fixpoint popcount_pos (p : positive) : nat :=
  match p with
  | xH => 1
  | xO p' => popcount_pos p'
  | xI p' => S (popcount_pos p')
  end.

Definition popcount (n : N) : nat :=
  match n with
  | N0 => 0
  | Npos p => popcount_pos p
  end.

Definition hamming (h1 h2 : N) : nat := popcount (N.lxor h1 h2).

Definition threshold : nat := 5.

(** The walk that collects [image_hashes]: a path of an exact group is
    skipped; a file that PIL cannot open or hash is logged and left out. *)
Definition collect_image_hashes `{World} (exact_dup_files : gset string)
    (t : tree) : list (N * string) :=
  omap (λ filepath,
          if decide (filepath ∈ exact_dup_files) then None
          else
            data ← read_bytes filepath;
            h ← phash data;
            Some (h, filepath))
    (walk_paths t).

(** The inner loop [for h2, path2 in image_hashes[i+1:]] *)
Fixpoint scan_similar (h1 : N) (rest : list (N * string))
    (current_group : list string) (checked : gset string)
  : list string * gset string :=
  match rest with
  | [] => (current_group, checked)
  | (h2, path2) :: rest' =>
      if decide (path2 ∈ checked) then
        scan_similar h1 rest' current_group checked
      else if decide (hamming h1 h2 ≤ threshold) then
        scan_similar h1 rest' (current_group ++ [path2]) ({[path2]} ∪ checked)
      else scan_similar h1 rest' current_group checked
  end.

(** The body of [for i, (h1, path1) in enumerate(image_hashes)]; [rest] is
    [image_hashes[i+1:]], and the state is [(similar_groups, checked)]. *)
Definition similar_step (x : N * string) (rest : list (N * string))
    (st : list (list string) * gset string) : list (list string) * gset string :=
  let '(h1, path1) := x in
  let '(similar_groups, checked) := st in
  if decide (path1 ∈ checked) then st
  else
    let '(current_group, checked) := scan_similar h1 rest [path1] checked in
    if decide (1 < length current_group) then
      (similar_groups ++ [current_group], {[path1]} ∪ checked)
    else (similar_groups, checked).

Fixpoint group_similar (image_hashes : list (N * string))
    (st : list (list string) * gset string) : list (list string) * gset string :=
  match image_hashes with
  | [] => st
  | x :: rest => group_similar rest (similar_step x rest st)
  end.

Definition similar_groups_of (image_hashes : list (N * string))
  : list (list string) :=
  (group_similar image_hashes ([], ∅)).1.

(** [for i, group in enumerate(similar_groups)], entered with [i] *)
Fixpoint copy_similar_groups `{World} (d : dirs) (i : nat)
    (groups : list (list string)) (fs : store) : option store :=
  match groups with
  | [] => Some fs
  | group :: rest =>
      let group_dir :=
        OsPath.join (similar_files_dir d) ("similar_group_" +:+ Fmt.dec (i + 1)) in
      fs ← copy_members "_similar" group_dir 0 group fs;
      copy_similar_groups d (S i) rest fs
  end.

(** ** [organize_duplicates] *)

(** What a run leaves: the audit directory, the values of its variables
    when it returns, the paths of the warnings of the first pass, and the
    value returned. [out_similarity] is [None] when the second pass is not
    entered, and else [image_hashes] and [similar_groups]. *)
Record outcome := Outcome {
  out_fs : store;
  out_hashes : list (string * list string);
  out_skipped : list string;
  out_exact_dup_groups : list (list string);
  out_file_mapping : list (string * list string);
  out_file_counter : nat;
  out_similarity : option (list (N * string) * list (list string));
  out_return : nat;
}.

Definition initial_state (fs0 : store) : state :=
  {| fs := fs0; processed_hashes := ∅; file_counter := 1; file_mapping := [] |}.

Definition second_pass `{World} (d : dirs) (source : tree)
    (exact_dup_groups : list (list string)) (fs : store)
  : option (store * option (list (N * string) * list (list string))) :=
  if has_image_files source then
    let exact_dup_files : gset string := list_to_set (mjoin exact_dup_groups) in
    let image_hashes := collect_image_hashes exact_dup_files source in
    let similar_groups := similar_groups_of image_hashes in
    fs ← copy_similar_groups d 0 similar_groups fs;
    Some (fs, Some (image_hashes, similar_groups))
  else Some (fs, None).

(** [source] is what [os.walk(source_directory)] yields, [fs0] the audit
    directory before the run; [None] is a run ended by an exception. *)
Definition organize_duplicates `{World} (source : tree)
    (output_base_dir : string) (fs0 : store) : option outcome :=
  let d := dirs_of output_base_dir in
  let '(hashes, skipped) := find_exact source in
  let exact_dup_groups := exact_dup_groups_of hashes in
  s ← process_groups d 0 exact_dup_groups (initial_state fs0);
  s ← copy_uniques d hashes s;
  let fs1 :=
    write_text (OsPath.join (consolidated_dir d) "master_file_index.txt")
      (master_index_text (file_mapping s)) (fs s) in
  '(fs2, similarity) ← second_pass d source exact_dup_groups fs1;
  Some {| out_fs := fs2;
          out_hashes := hashes;
          out_skipped := skipped;
          out_exact_dup_groups := exact_dup_groups;
          out_file_mapping := file_mapping s;
          out_file_counter := file_counter s;
          out_similarity := similarity;
          out_return := file_counter s - 1 |}.

Definition out_similar_groups (o : outcome) : list (list string) :=
  match out_similarity o with
  | Some (_, similar_groups) => similar_groups
  | None => []
  end.

Definition out_image_hashes (o : outcome) : list (N * string) :=
  match out_similarity o with
  | Some (image_hashes, _) => image_hashes
  | None => []
  end.

(** The state of the loop of [group_similar] when it has run [n] times,
    with the pairs it has not reached yet. *)
Fixpoint group_similar_upto (n : nat) (image_hashes : list (N * string))
    (st : list (list string) * gset string)
  : list (N * string) * (list (list string) * gset string) :=
  match n, image_hashes with
  | S n', x :: rest => group_similar_upto n' rest (similar_step x rest st)
  | _, _ => (image_hashes, st)
  end.

(** ** The clusterer as the specification words it

    Pairs are marked assigned by their position in the input, where the
    code keeps a set of paths. *)

Module SpecClusterer.

(** Scan the pairs after the seed, [k] being the position of the head of
    [rest]: each pair that is not assigned and within [tau] of the seed is
    added and marked. *)
Fixpoint scan (tau : nat) (seed : N) (k : nat) (rest : list (N * string))
    (assigned : gset nat) : list string * gset nat :=
  match rest with
  | [] => ([], assigned)
  | (h, path) :: rest' =>
      if decide (k ∈ assigned) then scan tau seed (S k) rest' assigned
      else if decide (hamming seed h ≤ tau) then
        let '(members, assigned') :=
          scan tau seed (S k) rest' ({[k]} ∪ assigned) in
        (path :: members, assigned')
      else scan tau seed (S k) rest' assigned
  end.

(** Process the pairs in input order, [i] being the position of the head:
    a pair that is not assigned starts a group; a group of size 1 is
    discarded. *)
Fixpoint cluster_from (tau : nat) (i : nat) (pairs : list (N * string))
    (assigned : gset nat) : list (list string) :=
  match pairs with
  | [] => []
  | (h, path) :: rest =>
      if decide (i ∈ assigned) then cluster_from tau (S i) rest assigned
      else
        let '(members, assigned') := scan tau h (S i) rest assigned in
        let group := path :: members in
        if decide (length group = 1) then cluster_from tau (S i) rest assigned'
        else group :: cluster_from tau (S i) rest assigned'
  end.

Definition cluster (tau : nat) (pairs : list (N * string)) : list (list string) :=
  cluster_from tau 0 pairs ∅.

End SpecClusterer.

(** ** Invariants of the loops *)

(** What the hashing loop has built when it has gone through [l]. *)
Definition scan_inv `{World} (l : list string)
    (acc : list (string * list string) * list string) : Prop :=
  NoDup acc.1.*1
  ∧ (∀ k, Dict.get k acc.1 =
          match with_digest k l with [] => None | v => Some v end)
  ∧ acc.2 = filter (λ p, read_bytes p = None) l.

(** A group of the clusterer over [l]: the path of a seed at some position
    [i], followed by one or more paths of pairs after [i], in the order of
    [l], each within the threshold of the seed. *)
Definition seeded_group (l : list (N * string)) (g : list string) : Prop :=
  ∃ i h1 path1 members,
    l !! i = Some (h1, path1)
    ∧ g = path1 :: members
    ∧ members ≠ []
    ∧ members `sublist_of` (drop (S i) l).*2
    ∧ ∀ p, p ∈ members →
        ∃ h, (h, p) ∈ drop (S i) l ∧ hamming h1 h ≤ threshold.

(** The marks of the code (a set of paths) and those of the specification
    (a set of positions) say the same of the pairs of [rest], which are at
    the positions from [i] on. *)
Definition marks_agree (i : nat) (rest : list (N * string))
    (checked : gset string) (assigned : gset nat) : Prop :=
  ∀ j h p, rest !! j = Some (h, p) → p ∈ checked ↔ i + j ∈ assigned.

(** ** Names in the audit directory *)

Definition has_prefix (s k : string) : Prop := ∃ r, k = s +:+ r.

(** Nothing under the consolidated directory is under one of the two
    others. *)
Definition separate_dirs (d : dirs) : Prop :=
  ∀ k, has_prefix (consolidated_dir d) k →
       ¬ has_prefix (exact_dup_dir d) k ∧ ¬ has_prefix (similar_files_dir d) k.

(** The name and the path of the copy numbered [n], of the file [rep]. *)
Definition consolidated_name (n : nat) (rep : string) : string :=
  Fmt.d05 n +:+ (OsPath.splitext rep).2.

Definition consolidated_key (d : dirs) (n : nat) (rep : string) : string :=
  OsPath.join (consolidated_dir d) (consolidated_name n rep).

Definition duplicates_index (d : dirs) : string :=
  OsPath.join (consolidated_dir d) "duplicates_index.txt".

Definition master_file_index (d : dirs) : string :=
  OsPath.join (consolidated_dir d) "master_file_index.txt".

(** ** The consolidated entries in closed form *)

(** The entries of [file_mapping] for the lists [vs] of original paths,
    numbered from [c]: each is named after the first path of its list. *)
Fixpoint mapping_of (d : dirs) (c : nat) (vs : list (list string))
  : list (string * list string) :=
  match vs with
  | [] => []
  | v :: vs' =>
      (consolidated_key d c (default "" (head v)), v) :: mapping_of d (S c) vs'
  end.

(** The lists of [hashes] with one path *)
Definition singles_of (hashes : list (string * list string))
  : list (list string) :=
  filter (λ paths, length paths = 1) hashes.*2.

(** The digest of the first path of a list *)
Definition key_of `{World} (v : list string) : option string :=
  head v ≫= digest.

(** The blocks that the groups [gs] add to the index of duplicates when
    the counter is [c], and the index after them. *)
Definition index_block `{World} (c : nat) (g : list string) : string :=
  duplicates_index_block
    (consolidated_name c (default "" (head g))) (default "" (key_of g)) g.

Fixpoint index_blocks `{World} (c : nat) (gs : list (list string)) : string :=
  match gs with
  | [] => ""
  | g :: gs' => index_block c g +:+ index_blocks (S c) gs'
  end.

Fixpoint index_after `{World} (old : option string) (c : nat)
    (gs : list (list string)) : option string :=
  match gs with
  | [] => old
  | g :: gs' =>
      index_after (Some (default "" old +:+ index_block c g)) (S c) gs'
  end.

(** The state of the run when the lists [vs] have been consolidated. *)
Definition consolidated `{World} (d : dirs) (vs : list (list string))
    (s : state) : Prop :=
  file_mapping s = mapping_of d 1 vs
  ∧ file_counter s = S (length vs)
  ∧ (∀ h, h ∈ processed_hashes s → ∃ v, v ∈ vs ∧ key_of v = Some h)
  ∧ (∀ i v, vs !! i = Some v →
       ∃ rep, head v = Some rep ∧ is_Some (read_bytes rep)
              ∧ fs s !! consolidated_key d (S i) rep = read_bytes rep).

(** ** Statements about a run *)

(** Every file of the walk is in the list of original paths of one entry of
    [file_mapping], and of one only. *)
Definition every_file_in_one_entry (t : tree) (o : outcome) : Prop :=
  ∀ p, p ∈ walk_paths t →
    ∃ i k v, out_file_mapping o !! i = Some (k, v) ∧ p ∈ v
      ∧ ∀ j k' v', out_file_mapping o !! j = Some (k', v') → p ∈ v' → j = i.

(** ** A small source tree for the examples

    The digest of a file is its content after a fixed prefix, and a file
    whose content starts with [IMG] is an image whose fingerprint is the
    code of the character that follows. *)

Definition toy_files : list (string * string) :=
  [("src/a.jpg", "IMGA"); ("src/b.jpg", "IMGA"); ("src/c.jpg", "IMGC");
   ("src/n.bin", "zz")].

Definition toy_world : World :=
  {| read_bytes p := Dict.get p toy_files;
     md5_hexdigest data := "md5:" +:+ data;
     phash data :=
       match data with
       | String "I" (String "M" (String "G" (String c _))) =>
           Some (Ascii.N_of_ascii c)
       | _ => None
       end |}.

(** [gone.png] is in the directory but cannot be read. *)
Definition toy_tree : tree :=
  [("src", ["a.jpg"; "b.jpg"; "c.jpg"; "n.bin"; "gone.png"])].

(** A tree in which a renamed copy takes the name of an earlier member:
    three files with the same bytes, and three images within the threshold
    of the first. *)
Definition clash_files : list (string * string) :=
  [("src/a/x_dup2.jpg", "IMGA"); ("src/b/x.jpg", "IMGA"); ("src/c/x.jpg", "IMGA");
   ("src/d/y_similar2.jpg", "IMG0"); ("src/e/y.jpg", "IMG1");
   ("src/f/y.jpg", "IMG3")].

Definition clash_world : World :=
  {| read_bytes p := Dict.get p clash_files;
     md5_hexdigest := @md5_hexdigest toy_world;
     phash := @phash toy_world |}.

Definition clash_tree : tree :=
  [("src", []); ("src/a", ["x_dup2.jpg"]); ("src/b", ["x.jpg"]);
   ("src/c", ["x.jpg"]); ("src/d", ["y_similar2.jpg"]); ("src/e", ["y.jpg"]);
   ("src/f", ["y.jpg"])].

(** A tree of the small world without two files of the same content and
    without a file name that has an image extension. *)
Definition plain_tree : tree := [("src", ["n.bin"])].

(** What the outer loop of the clusterer keeps, when it has gone through
    [pre] and [rest] is still to come, [l] being the whole input and [gs]
    the groups so far, whose members are the marked paths: an unmarked pair
    it has passed is farther than the threshold from every unmarked pair
    to come; the first member of a group is farther than the threshold
    from every unmarked pair, to come or passed, and from the first member
    of every other group. *)
Definition seeds_far_inv (l pre rest : list (N * string))
    (gs : list (list string)) : Prop :=
  let checked : gset string := list_to_set (mjoin gs) in
  (∀ hq q hr r, (hq, q) ∈ pre → q ∉ checked → (hr, r) ∈ rest → r ∉ checked →
     threshold < hamming hq hr)
  ∧ (∀ g s hs hr r, g ∈ gs → head g = Some s → (hs, s) ∈ l →
       (hr, r) ∈ rest → r ∉ checked → threshold < hamming hs hr)
  ∧ (∀ g s hs hq q, g ∈ gs → head g = Some s → (hs, s) ∈ l →
       (hq, q) ∈ pre → q ∉ checked → threshold < hamming hs hq)
  ∧ (∀ i j gi gj si sj hi hj,
       gs !! i = Some gi → gs !! j = Some gj → i ≠ j →
       head gi = Some si → head gj = Some sj →
       (hi, si) ∈ l → (hj, sj) ∈ l → threshold < hamming hi hj).

(** ** [upload_to_huggingface] of [hf_uploader.py]

    What the uploader meets outside: the token of the environment, what
    the calls of the hub do, and the two texts it writes from the number of
    files and the clock. An exception is given by its message. *)

Record Hub := {
  (** [os.getenv("HF_TOKEN")] *)
  hf_token : option string;
  (** [api.repo_info]: [None] when it returns, else [str(e)] *)
  repo_info_error : option string;
  (** [create_repo]: [None] when it returns, else [str(create_err)] *)
  create_repo_error : option string;
  (** [api.create_commit] of the batch of a given index returns *)
  commit_succeeds : nat → bool;
  (** the dataset card and [metadata.json] for a number of images *)
  dataset_card : nat → string;
  metadata_json : nat → string;
  (** [datetime.now().strftime("%Y%m%d_%H%M%S")] *)
  timestamp : string;
}.

(** [needle in hay] for two strings *)
Fixpoint contains (needle hay : string) : bool :=
  String.prefix needle hay
  || match hay with
     | "" => false
     | String _ hay' => contains needle hay'
     end.

(** [CommitOperationAdd(path_in_repo, path_or_fileobj)] *)
Definition operation : Type := string * string.

(** A commit made on the hub: its message and its operations *)
Definition commit : Type := string * list operation.

Record remote := Remote {
  repo_created : bool;
  commits : list commit;
}.

(** The file names that the uploader takes for images, as a list *)
Definition upload_extensions : list string :=
  [".jpg"; ".jpeg"; ".png"; ".gif"; ".webp"; ".bmp"; ".tiff"].

(** The loop that collects [image_files] from the walk of [source_dir] *)
Definition upload_image_files (t : tree) : list string :=
  t ≫= λ '(root, files),
    OsPath.join root <$>
      filter (λ file, Str.lower (OsPath.splitext file).2 ∈ upload_extensions)
        files.

(** [l[start:end]] for two integers: a negative index counts from the
    end, and both are cut to the bounds of the list. *)
Definition slice_index (len i : Z) : Z :=
  if bool_decide (i < 0)%Z then Z.max (i + len) 0 else Z.min i len.

Definition slice {A : Type} (start stop : Z) (l : list A) : list A :=
  let len := Z.of_nat (length l) in
  let s := Z.to_nat (slice_index len start) in
  let e := Z.to_nat (slice_index len stop) in
  take (e - s) (drop s l).

(** The operations that add the files of a batch; reading a file is
    outside any [try]. *)
Fixpoint batch_file_operations `{World} (batch_files : list string)
  : option (list operation) :=
  match batch_files with
  | [] => Some []
  | img_path :: rest =>
      data ← read_bytes img_path;
      ops ← batch_file_operations rest;
      Some (("images/" +:+ OsPath.basename img_path, data) :: ops)
  end.

(** [f"Upload batch {batch_idx+1}/{total_batches} - {version_name}"];
    the loop runs only for a positive [total_batches]. *)
Definition commit_message_of (batch_idx : nat) (total_batches : Z)
    (version_name : string) : string :=
  "Upload batch " +:+ Fmt.dec (batch_idx + 1) +:+ "/"
  +:+ Fmt.dec (Z.to_nat total_batches) +:+ " - " +:+ version_name.

(** The two operations the list [operations] holds before the loop: the
    dataset card and the metadata, written for [n] image files. *)
Definition operations (hub : Hub) (n : nat) : list operation :=
  [("README.md", dataset_card hub n); ("metadata.json", metadata_json hub n)].

(** The loop [for batch_idx in range(total_batches)], over the indices
    left; the result is the commits made and what the function returns,
    [None] for an exception that is not caught. *)
Fixpoint upload_batches `{World} (hub : Hub) (image_files : list string)
    (operations : list operation) (batch_size total_batches : Z)
    (version_name : string) (indices : list nat) (done : list commit)
  : list commit * option bool :=
  match indices with
  | [] => (done, Some true)
  | batch_idx :: rest =>
      let start_idx := (Z.of_nat batch_idx * batch_size)%Z in
      let end_idx :=
        Z.min ((Z.of_nat batch_idx + 1) * batch_size)
          (Z.of_nat (length image_files)) in
      let batch_files := slice start_idx end_idx image_files in
      let batch_operations := if decide (batch_idx = 0) then operations else [] in
      match batch_file_operations batch_files with
      | None => (done, None)
      | Some file_operations =>
          let commit_message :=
            commit_message_of batch_idx total_batches version_name in
          if commit_succeeds hub batch_idx then
            upload_batches hub image_files operations batch_size total_batches
              version_name rest
              (done ++ [(commit_message, batch_operations ++ file_operations)])
          else (done, Some false)
      end
  end.

(** The check of the repository, before any file is looked at: [Some b]
    when the function goes on, [b] telling whether it created the
    repository, and [None] when it returns [False]. *)
Definition ensure_repo (hub : Hub) : option bool :=
  match repo_info_error hub with
  | None => Some false
  | Some e =>
      if contains "Repository Not Found" e && negb (contains "409" e) then
        match create_repo_error hub with
        | None => Some true
        | Some create_err =>
            if contains "You already created this dataset repo" create_err
            then Some false
            else None
        end
      else Some false
  end.

(** [upload_to_huggingface(source_dir, dataset_name, batch_size,
    version_name)]: [source] is the walk of [source_dir]. A batch size of
    0 makes the division raise. *)
Definition upload_to_huggingface `{World} (hub : Hub) (source : tree)
    (batch_size : Z) (version_name : option string)
  : remote * option bool :=
  match hf_token hub with
  | None | Some "" => (Remote false [], Some false)
  | Some _ =>
      match ensure_repo hub with
      | None => (Remote false [], Some false)
      | Some created =>
          let image_files := upload_image_files source in
          if decide (image_files = []) then (Remote created [], Some false)
          else
            let n := length image_files in
            let operations := operations hub n in
            if decide (batch_size = 0)%Z then (Remote created [], None)
            else
              let total_batches :=
                ((Z.of_nat n + batch_size - 1) `div` batch_size)%Z in
              let version := default (timestamp hub) version_name in
              let '(done, result) :=
                upload_batches hub image_files operations batch_size
                  total_batches version
                  (seq 0 (Z.to_nat total_batches)) [] in
              (Remote created done, result)
      end
  end.

(** What the loop adds for an image file that can be read *)
Definition image_operation `{World} (img_path : string) : operation :=
  ("images/" +:+ OsPath.basename img_path, default "" (read_bytes img_path)).

(** The files of the batch of index [i] for a batch size [b] of at least
    1, and the commit made for it. *)
Definition batch (b : nat) (image_files : list string) (i : nat)
  : list string :=
  take b (drop (i * b) image_files).

Definition batch_commit `{World} (hub : Hub) (image_files : list string)
    (batch_size : Z) (version_name : option string) (i : nat) : commit :=
  let n := length image_files in
  (commit_message_of i ((Z.of_nat n + batch_size - 1) `div` batch_size)
     (default (timestamp hub) version_name),
   (if decide (i = 0) then operations hub n else [])
   ++ (image_operation <$> batch (Z.to_nat batch_size) image_files i)).

(** The number of batches for [n] files and a batch size [b] *)
Definition batches (n : nat) (batch_size : Z) : nat :=
  Z.to_nat ((Z.of_nat n + batch_size - 1) `div` batch_size).

(** All the operations of the commits on the hub, in the order made *)
Definition uploaded (r : remote) : list operation :=
  mjoin (snd <$> commits r).

(** A hub on which every call succeeds, and one that refuses the second
    commit; a tree whose image files can all be read. *)
Definition toy_hub : Hub :=
  {| hf_token := Some "hf_token";
     repo_info_error := None;
     create_repo_error := None;
     commit_succeeds _ := true;
     dataset_card n := "images: " +:+ Fmt.dec n;
     metadata_json n := "total_images: " +:+ Fmt.dec n;
     timestamp := "20240101_120000" |}.

Definition flaky_hub : Hub :=
  {| hf_token := Some "hf_token";
     repo_info_error := Some "404 Repository Not Found";
     create_repo_error := None;
     commit_succeeds i := bool_decide (i < 1);
     dataset_card n := "images: " +:+ Fmt.dec n;
     metadata_json n := "total_images: " +:+ Fmt.dec n;
     timestamp := "20240101_120000" |}.

Definition readable_tree : tree :=
  [("src", ["a.jpg"; "notes.txt"; "b.jpg"; "c.jpg"])].

(** * Properties *)

(** ** Strings and paths *)

Module StrFacts.

Lemma app_nil_l (t : string) : "" +:+ t = t.
Proof. reflexivity. Qed.

Lemma app_cons (a : ascii) (s t : string) :
  String a s +:+ t = String a (s +:+ t).
Proof. reflexivity. Qed.

Lemma app_nil_r (s : string) : s +:+ "" = s.
Proof. induction s as [|a s IH]; [done|]. by rewrite app_cons, IH. Qed.

Lemma app_assoc (s t u : string) : (s +:+ t) +:+ u = s +:+ t +:+ u.
Proof. induction s as [|a s IH]; [done|]. by rewrite !app_cons, IH. Qed.

Lemma take_drop (n : nat) (s : string) : Str.take n s +:+ Str.drop n s = s.
Proof.
  revert s. induction n as [|n IH]; intros [|a s]; simpl; try done.
  by rewrite app_cons, IH.
Qed.

Lemma rfind_lower (c : ascii) (s : string) : (-1 ≤ Str.rfind c s)%Z.
Proof.
  induction s as [|a s IH]; simpl; [lia|].
  repeat case_bool_decide; lia.
Qed.

(** The character at the index that [rfind] returns is the one looked for. *)
Lemma drop_rfind (c : ascii) (s : string) :
  (0 ≤ Str.rfind c s)%Z →
  Str.startswith c (Str.drop (Z.to_nat (Str.rfind c s)) s) = true.
Proof.
  induction s as [|a s IH]; simpl; [lia|].
  case_bool_decide as Hr.
  - intros _. replace (Z.to_nat (Str.rfind c s + 1)) with (S (Z.to_nat (Str.rfind c s))) by lia.
    simpl. auto.
  - case_bool_decide as Hc; [|lia]. intros _. simpl. by apply bool_decide_eq_true.
Qed.

(** Nothing after the index that [rfind] returns is the character. *)
Lemma drop_rfind_succ (c : ascii) (s : string) :
  Str.mem c (Str.drop (Z.to_nat (Str.rfind c s + 1)) s) = false.
Proof.
  induction s as [|a s IH]; simpl; [done|].
  pose proof (rfind_lower c s) as Hl.
  case_bool_decide as Hr.
  - replace (Z.to_nat (Str.rfind c s + 1 + 1)) with (S (Z.to_nat (Str.rfind c s + 1))) by lia.
    done.
  - assert (Str.rfind c s = (-1)%Z) as Heq by lia.
    rewrite Heq in IH. simpl in IH.
    case_bool_decide as Hc; simpl.
    + done.
    + rewrite IH. by rewrite bool_decide_eq_false_2.
Qed.

Lemma basename_no_sep (p : string) :
  Str.mem OsPath.sep (OsPath.basename p) = false.
Proof. apply drop_rfind_succ. Qed.

Lemma mem_startswith (c : ascii) (s : string) :
  Str.mem c s = false → Str.startswith c s = false.
Proof. destruct s as [|a s]; simpl; [done|]. by intros [? ?]%orb_false_iff. Qed.

Lemma startswith_app (c : ascii) (s t : string) :
  s ≠ "" → Str.startswith c (s +:+ t) = Str.startswith c s.
Proof. by destruct s. Qed.

Lemma splitext_app (p : string) :
  (OsPath.splitext p).1 +:+ (OsPath.splitext p).2 = p.
Proof.
  unfold OsPath.splitext. case_match; simpl.
  - apply take_drop.
  - apply app_nil_r.
Qed.

Lemma splitext_is_ext (p : string) : OsPath.is_ext (OsPath.splitext p).2 = true.
Proof.
  unfold OsPath.splitext. case_match eqn:Hc; simpl; [|done].
  apply andb_true_iff in Hc as [Hlt _]. apply bool_decide_eq_true in Hlt.
  pose proof (rfind_lower OsPath.sep p).
  pose proof (drop_rfind OsPath.extsep p ltac:(lia)) as Hd.
  destruct (Str.drop _ p); simpl in *; done.
Qed.

(** [join a b] keeps [a] in front when [b] is not absolute. *)
Lemma join_relative (a b : string) :
  Str.startswith OsPath.sep b = false →
  ∃ m, OsPath.join a b = a +:+ m +:+ b.
Proof.
  intros Hb. unfold OsPath.join. rewrite Hb.
  case_match; [by exists ""|by exists "/"].
Qed.

Lemma endswith_app (c : ascii) (s t : string) :
  t ≠ "" → Str.endswith c (s +:+ t) = Str.endswith c t.
Proof.
  intros Ht. induction s as [|a s IH]; [done|].
  rewrite app_cons. simpl. rewrite IH.
  destruct (s +:+ t) eqn:Hst; [|done].
  destruct s, t; done.
Qed.

End StrFacts.

(** ** Decimal names *)

Module FmtFacts.

Lemma string_of_uint_digits (d : Decimal.uint) :
  Fmt.all_digits (NilEmpty.string_of_uint d) = true.
Proof. induction d; simpl; auto. Qed.

Lemma dec_digits (n : nat) : Fmt.all_digits (Fmt.dec n) = true.
Proof. apply string_of_uint_digits. Qed.

Lemma dec_nonempty (n : nat) : Fmt.dec n ≠ "".
Proof.
  unfold Fmt.dec. intros He.
  assert (Nat.to_uint n = Decimal.Nil) as Hn.
  { destruct (Nat.to_uint n); simpl in He; done. }
  pose proof (Unsigned.to_of (Nat.to_uint n)) as Ht.
  rewrite Unsigned.of_to, Hn in Ht.
  by apply (DecimalFacts.unorm_nonnil Decimal.Nil).
Qed.

Lemma all_digits_app (s t : string) :
  Fmt.all_digits (s +:+ t) = Fmt.all_digits s && Fmt.all_digits t.
Proof.
  induction s as [|a s IH]; [done|].
  rewrite StrFacts.app_cons. simpl. by rewrite IH, andb_assoc.
Qed.

Lemma replicate_zero_digits (k : nat) :
  Fmt.all_digits (Str.replicate k "0"%char) = true.
Proof. induction k; simpl; auto. Qed.

Lemma d05_digits (n : nat) : Fmt.all_digits (Fmt.d05 n) = true.
Proof.
  unfold Fmt.d05. by rewrite all_digits_app, replicate_zero_digits, dec_digits.
Qed.

Lemma d05_nonempty (n : nat) : Fmt.d05 n ≠ "".
Proof.
  unfold Fmt.d05. pose proof (dec_nonempty n).
  destruct (Str.replicate _ _), (Fmt.dec n); done.
Qed.

(** The number that a string of digits writes. *)
Lemma value_zero (s : string) : Fmt.value (String "0" s) = Fmt.value s.
Proof.
  unfold Fmt.value. simpl. by destruct (NilEmpty.uint_of_string s).
Qed.

Lemma value_dec (n : nat) : Fmt.value (Fmt.dec n) = Some n.
Proof.
  unfold Fmt.value, Fmt.dec. rewrite NilEmpty.usu. simpl.
  by rewrite Unsigned.of_to.
Qed.

Lemma value_d05 (n : nat) : Fmt.value (Fmt.d05 n) = Some n.
Proof.
  unfold Fmt.d05. induction (5 - String.length (Fmt.dec n)) as [|k IH]; simpl.
  - apply value_dec.
  - by rewrite StrFacts.app_cons, value_zero.
Qed.

Lemma d05_inj (n m : nat) : Fmt.d05 n = Fmt.d05 m → n = m.
Proof.
  intros Heq. pose proof (value_d05 n) as Hn.
  rewrite Heq, value_d05 in Hn. congruence.
Qed.

Lemma digit_not_extsep (a : ascii) :
  Fmt.is_digit a = true → a ≠ OsPath.extsep.
Proof. intros Hd ->. done. Qed.

(** A run of digits followed by an extension splits in one way only. *)
Lemma digits_ext_inj (s1 s2 e1 e2 : string) :
  Fmt.all_digits s1 = true → Fmt.all_digits s2 = true →
  OsPath.is_ext e1 = true → OsPath.is_ext e2 = true →
  s1 +:+ e1 = s2 +:+ e2 → s1 = s2.
Proof.
  revert s2. induction s1 as [|a s1 IH]; intros [|b s2] H1 H2 He1 He2 Heq.
  - done.
  - rewrite StrFacts.app_nil_l, StrFacts.app_cons in Heq. subst e1.
    simpl in He1, H2. apply andb_true_iff in H2 as [Hb _].
    apply bool_decide_eq_true in He1. by apply digit_not_extsep in Hb.
  - rewrite StrFacts.app_nil_l, StrFacts.app_cons in Heq. subst e2.
    simpl in He2, H1. apply andb_true_iff in H1 as [Ha _].
    apply bool_decide_eq_true in He2. by apply digit_not_extsep in Ha.
  - rewrite !StrFacts.app_cons in Heq. injection Heq as -> Heq.
    simpl in H1, H2. apply andb_true_iff in H1 as [_ H1].
    apply andb_true_iff in H2 as [_ H2].
    f_equal. by apply IH.
Qed.

Lemma d05_ext_inj (n m : nat) (e1 e2 : string) :
  OsPath.is_ext e1 = true → OsPath.is_ext e2 = true →
  Fmt.d05 n +:+ e1 = Fmt.d05 m +:+ e2 → n = m.
Proof.
  intros He1 He2 Heq. apply d05_inj.
  by apply (digits_ext_inj _ _ e1 e2); [apply d05_digits..| | |].
Qed.

Lemma d05_head (n : nat) (e : string) :
  ∃ a s, Fmt.is_digit a = true ∧ Fmt.d05 n +:+ e = String a s.
Proof.
  pose proof (d05_digits n) as Hd. pose proof (d05_nonempty n) as Hn.
  destruct (Fmt.d05 n) as [|a s]; [done|].
  simpl in Hd. apply andb_true_iff in Hd as [Ha _].
  exists a, (s +:+ e). by rewrite StrFacts.app_cons.
Qed.

End FmtFacts.

(** ** Dictionaries *)

Module DictFacts.

Section dict.
Context {V : Type}.
Implicit Types (k : string) (v : V) (d : list (string * V)).

Lemma get_set_eq k v d : Dict.get k (Dict.set k v d) = Some v.
Proof.
  induction d as [|[k' v'] d IH]; simpl.
  - by rewrite decide_True.
  - destruct (decide (k' = k)) as [->|Hne]; simpl.
    + by rewrite decide_True.
    + by rewrite decide_False.
Qed.

Lemma get_set_ne k k' v d :
  k ≠ k' → Dict.get k' (Dict.set k v d) = Dict.get k' d.
Proof.
  intros Hne. induction d as [|[k0 v0] d IH]; simpl.
  - by rewrite decide_False.
  - destruct (decide (k0 = k)) as [->|Hne0]; simpl.
    + by rewrite !decide_False.
    + by rewrite IH.
Qed.

Lemma get_None k d : Dict.get k d = None ↔ k ∉ d.*1.
Proof.
  induction d as [|[k' v'] d IH]; simpl.
  - split; [|done]. intros _. apply not_elem_of_nil.
  - destruct (decide (k' = k)) as [->|Hne].
    + split; [done|]. intros Hk. destruct Hk. left.
    + rewrite IH, not_elem_of_cons. split; [by intros ?; split; [congruence|]|by intros [_ ?]].
Qed.

Lemma get_Some_elem k v d : Dict.get k d = Some v → (k, v) ∈ d.
Proof.
  induction d as [|[k' v'] d IH]; simpl; [done|].
  destruct (decide (k' = k)) as [->|Hne].
  - intros [= ->]. left.
  - intros ?. right. auto.
Qed.

Lemma elem_get k v d : NoDup d.*1 → (k, v) ∈ d → Dict.get k d = Some v.
Proof.
  induction d as [|[k' v'] d IH]; simpl.
  - intros _ ?%elem_of_nil. done.
  - intros [Hk Hd]%NoDup_cons [Heq|Hin]%elem_of_cons.
    + injection Heq as -> ->. by rewrite decide_True.
    + rewrite decide_False; [auto|].
      intros ->. apply Hk. by apply (list_elem_of_fmap_2 fst _ (k, v)).
Qed.

(** An assignment to a key that is not there appends the entry. *)
Lemma set_fresh k v d : Dict.get k d = None → Dict.set k v d = d ++ [(k, v)].
Proof.
  induction d as [|[k' v'] d IH]; simpl; [done|].
  destruct (decide (k' = k)); [done|]. intros ?. f_equal. auto.
Qed.

Lemma set_keys k v d :
  (Dict.set k v d).*1 = if decide (k ∈ d.*1) then d.*1 else d.*1 ++ [k].
Proof.
  induction d as [|[k0 v0] d IH]; [done|].
  rewrite fmap_cons. cbn [Dict.set fst].
  destruct (decide (k0 = k)) as [->|Hne].
  - rewrite decide_True by left. done.
  - rewrite fmap_cons, IH. cbn [fst].
    destruct (decide (k ∈ d.*1)) as [Hin|Hnin].
    + rewrite decide_True by (by right). done.
    + rewrite decide_False; [done|]. rewrite not_elem_of_cons. by split.
Qed.

Lemma set_keys_NoDup k v d : NoDup d.*1 → NoDup (Dict.set k v d).*1.
Proof.
  intros Hd. rewrite set_keys. case_decide; [done|].
  apply NoDup_app. split_and!; [done| |apply NoDup_singleton].
  intros x Hx ->%list_elem_of_singleton. done.
Qed.

(** With keys that occur once, an entry is what [get] returns. *)
Lemma elem_lookup k v d : NoDup d.*1 → (k, v) ∈ d ↔ Dict.get k d = Some v.
Proof. split; [by apply elem_get|apply get_Some_elem]. Qed.

End dict.

End DictFacts.

(** ** The first pass *)

Section first_pass.
Context `{World}.

Lemma with_digest_snoc_eq k l p :
  digest p = Some k → with_digest k (l ++ [p]) = with_digest k l ++ [p].
Proof.
  intros Hp. unfold with_digest. rewrite filter_app.
  by rewrite (filter_cons_True _ p []) by done.
Qed.

Lemma with_digest_snoc_ne k l p :
  digest p ≠ Some k → with_digest k (l ++ [p]) = with_digest k l.
Proof.
  intros Hp. unfold with_digest. rewrite filter_app.
  rewrite (filter_cons_False _ p []) by done. apply app_nil_r.
Qed.

Lemma hash_file_inv l acc p :
  scan_inv l acc → scan_inv (l ++ [p]) (hash_file acc p).
Proof.
  destruct acc as [hashes skipped]. intros (Hnd & Hget & Hsk). simpl in *.
  unfold hash_file. destruct (read_bytes p) as [data|] eqn:Hr.
  - set (k0 := md5_hexdigest data).
    assert (digest p = Some k0) as Hp by (unfold digest; by rewrite Hr).
    set (hashes' := if Dict.mem k0 hashes then hashes else Dict.set k0 [] hashes).
    assert (NoDup hashes'.*1) as Hnd'.
    { unfold hashes'. destruct (Dict.mem k0 hashes); [done|].
      by apply DictFacts.set_keys_NoDup. }
    assert (default [] (Dict.get k0 hashes') = with_digest k0 l) as Hdef.
    { unfold hashes', Dict.mem. case_bool_decide as Hm.
      - rewrite Hget. by destruct (with_digest k0 l).
      - rewrite DictFacts.get_set_eq. simpl.
        rewrite Hget in Hm. destruct (with_digest k0 l); [done|].
        destruct Hm. by eexists. }
    assert (∀ k, k ≠ k0 → Dict.get k hashes' = Dict.get k hashes) as Hne.
    { intros k Hk. unfold hashes'. destruct (Dict.mem k0 hashes); [done|].
      by apply DictFacts.get_set_ne. }
    split_and!; simpl.
    + by apply DictFacts.set_keys_NoDup.
    + intros k. destruct (decide (k = k0)) as [->|Hk].
      * rewrite DictFacts.get_set_eq, Hdef, with_digest_snoc_eq by done.
        by destruct (with_digest k0 l).
      * rewrite DictFacts.get_set_ne, Hne, Hget by done.
        rewrite with_digest_snoc_ne; [done|]. rewrite Hp. congruence.
    + rewrite filter_app, (filter_cons_False _ p []); [|by rewrite Hr].
      by rewrite app_nil_r.
  - split_and!; simpl.
    + done.
    + intros k. rewrite Hget, with_digest_snoc_ne; [done|].
      unfold digest. by rewrite Hr.
    + rewrite filter_app, (filter_cons_True _ p []) by done. by rewrite Hsk.
Qed.

Lemma fold_hash_file_inv l : scan_inv l (fold_left hash_file l ([], [])).
Proof.
  induction l as [|p l IH] using rev_ind.
  - split_and!; simpl; [constructor|done..].
  - rewrite fold_left_app. simpl. by apply hash_file_inv.
Qed.

Lemma find_exact_inv t : scan_inv (walk_paths t) (find_exact t).
Proof. apply fold_hash_file_inv. Qed.

End first_pass.

(** ** Entries of [hashes] and exact groups *)

Section exact_groups.
Context `{World}.
Implicit Types (hashes : list (string * list string)) (l g v : list string).

Lemma with_digest_elem k l p :
  p ∈ with_digest k l ↔ digest p = Some k ∧ p ∈ l.
Proof. unfold with_digest. by rewrite list_elem_of_filter. Qed.

Lemma hashes_entry l hashes skipped k v :
  scan_inv l (hashes, skipped) → (k, v) ∈ hashes →
  v = with_digest k l ∧ v ≠ [].
Proof.
  intros (Hnd & Hget & _) Hin. simpl in *.
  apply DictFacts.elem_get in Hin; [|done].
  rewrite Hget in Hin. destruct (with_digest k l); by simplify_eq.
Qed.

Lemma hashes_has l hashes skipped p k :
  scan_inv l (hashes, skipped) → p ∈ l → digest p = Some k →
  (k, with_digest k l) ∈ hashes.
Proof.
  intros (Hnd & Hget & _) Hp Hd. simpl in *.
  apply DictFacts.get_Some_elem. rewrite Hget.
  assert (p ∈ with_digest k l) as Hin by (by apply with_digest_elem).
  destruct (with_digest k l); [|done]. by apply elem_of_nil in Hin.
Qed.

Lemma digest_readable p k : digest p = Some k → is_Some (read_bytes p).
Proof. unfold digest. destruct (read_bytes p); [by eexists|done]. Qed.

Lemma hashes_entry_head l hashes skipped k v :
  scan_inv l (hashes, skipped) → (k, v) ∈ hashes →
  ∃ p, head v = Some p ∧ digest p = Some k.
Proof.
  intros Hinv Hin. destruct (hashes_entry _ _ _ _ _ Hinv Hin) as [Hv Hne].
  destruct v as [|p v]; [done|]. exists p. split; [done|].
  assert (p ∈ with_digest k l) as Hp by (rewrite <-Hv; left).
  by apply with_digest_elem in Hp as [? _].
Qed.

Lemma hashes_values_NoDup l hashes skipped :
  scan_inv l (hashes, skipped) → NoDup hashes.*2.
Proof.
  intros Hinv. pose proof Hinv as (Hnd & _). simpl in Hnd.
  apply NoDup_fmap_2_strong; [|by apply NoDup_fmap_1 in Hnd].
  intros [k1 v1] [k2 v2] H1 H2 Heq. simpl in Heq. subst v2.
  destruct (hashes_entry_head _ _ _ _ _ Hinv H1) as (p & Hp1 & Hd1).
  destruct (hashes_entry_head _ _ _ _ _ Hinv H2) as (p' & Hp2 & Hd2).
  congruence.
Qed.

Lemma exact_group_elem hashes g :
  g ∈ exact_dup_groups_of hashes ↔ 1 < length g ∧ ∃ k, (k, g) ∈ hashes.
Proof.
  unfold exact_dup_groups_of. rewrite list_elem_of_filter, list_elem_of_fmap.
  split; intros [Hlen Hex]; (split; [done|]).
  - destruct Hex as ([k v] & -> & Hin). by exists k.
  - destruct Hex as (k & Hin). by exists (k, g).
Qed.

Lemma exact_groups_NoDup l hashes skipped :
  scan_inv l (hashes, skipped) → NoDup (exact_dup_groups_of hashes).
Proof. intros Hinv. apply NoDup_filter. by eapply hashes_values_NoDup. Qed.

Lemma two_elems_length {A} (l : list A) (x y : A) :
  x ∈ l → y ∈ l → x ≠ y → 1 < length l.
Proof.
  destruct l as [|a [|b l]]; simpl; [|intros Hx Hy Hne; exfalso|lia].
  - by intros ?%elem_of_nil.
  - apply list_elem_of_singleton in Hx, Hy. congruence.
Qed.

End exact_groups.

(** C2: in the exact-duplicate pass two files that were read are in one
    group exactly when their digests are equal; a group has at least two
    members, all of them files of the walk that were read; and groups at
    different places share no path. *)
Theorem exact_groups_by_digest `{World} (t : tree) :
  let groups := exact_dup_groups_of (find_exact t).1 in
  (∀ p q, p ∈ walk_paths t → q ∈ walk_paths t → p ≠ q →
          is_Some (read_bytes p) → is_Some (read_bytes q) →
          (∃ g, g ∈ groups ∧ p ∈ g ∧ q ∈ g) ↔ digest p = digest q)
  ∧ (∀ g, g ∈ groups →
          2 ≤ length g
          ∧ ∀ p, p ∈ g → p ∈ walk_paths t ∧ is_Some (read_bytes p))
  ∧ (∀ i j gi gj, groups !! i = Some gi → groups !! j = Some gj → i ≠ j →
          ∀ p, p ∈ gi → p ∉ gj).
Proof.
  intros groups. pose proof (find_exact_inv t) as Hinv.
  destruct (find_exact t) as [hashes skipped] eqn:Hfe. simpl in groups.
  assert (∀ g p, g ∈ groups → p ∈ g →
            ∃ k, g = with_digest k (walk_paths t) ∧ digest p = Some k
                 ∧ p ∈ walk_paths t) as Hmem.
  { intros g p [_ (k & Hin)]%exact_group_elem Hp.
    destruct (hashes_entry _ _ _ _ _ Hinv Hin) as [-> _].
    apply with_digest_elem in Hp as [? ?]. by exists k. }
  split_and!.
  - intros p q Hp Hq Hne [bp Hbp] [bq Hbq]. split.
    + intros (g & Hg & Hpg & Hqg).
      destruct (Hmem _ _ Hg Hpg) as (k & -> & Hdp & _).
      apply with_digest_elem in Hqg as [Hdq _]. congruence.
    + intros Hd. set (k := md5_hexdigest bp).
      assert (digest p = Some k) as Hdp by (unfold digest; by rewrite Hbp).
      assert (digest q = Some k) as Hdq by congruence.
      exists (with_digest k (walk_paths t)).
      assert (p ∈ with_digest k (walk_paths t)) by by apply with_digest_elem.
      assert (q ∈ with_digest k (walk_paths t)) by by apply with_digest_elem.
      split_and!; [|done..]. apply exact_group_elem. split.
      * by apply (two_elems_length _ p q).
      * exists k. by eapply hashes_has.
  - intros g Hg. split.
    + apply exact_group_elem in Hg as [? _]. lia.
    + intros p Hp. destruct (Hmem _ _ Hg Hp) as (k & _ & Hd & ?).
      split; [done|]. by eapply digest_readable.
  - intros i j gi gj Hi Hj Hij p Hpi Hpj.
    destruct (Hmem gi p) as (k & -> & Hd & _);
      [by eapply list_elem_of_lookup_2|done|].
    destruct (Hmem gj p) as (k' & -> & Hd' & _);
      [by eapply list_elem_of_lookup_2|done|].
    assert (k' = k) as -> by congruence.
    apply Hij. eapply NoDup_lookup; [|done..].
    by eapply exact_groups_NoDup.
Qed.

(** ** The similarity clusterer *)

Section clusterer.
Implicit Types (l rest : list (N * string)) (checked : gset string)
  (g cur : list string) (gs : list (list string)).

(** The inner loop appends to the group the paths it adds, in the order of
    the list, and marks them; each was unmarked and within the threshold. *)
Lemma scan_similar_spec h1 rest cur checked :
  ∃ added,
    scan_similar h1 rest cur checked
      = (cur ++ added, list_to_set added ∪ checked)
    ∧ added `sublist_of` rest.*2
    ∧ ∀ p, p ∈ added →
        (p ∉ checked) ∧ ∃ h, (h, p) ∈ rest ∧ hamming h1 h ≤ threshold.
Proof.
  revert cur checked. induction rest as [|[h2 path2] rest IH]; intros cur checked.
  - exists []. simpl. split_and!.
    + f_equal; [by rewrite app_nil_r|set_solver].
    + constructor.
    + by intros p ?%elem_of_nil.
  - simpl. destruct (decide (path2 ∈ checked)) as [Hc|Hc];
      [|destruct (decide (hamming h1 h2 ≤ threshold)) as [Hd|Hd]].
    + destruct (IH cur checked) as (added & -> & Hsub & Hall).
      exists added. split_and!; [done|by constructor|].
      intros p Hp. destruct (Hall p Hp) as (? & h & ? & ?).
      split; [done|]. exists h. split; [by right|done].
    + destruct (IH (cur ++ [path2]) ({[path2]} ∪ checked))
        as (added & -> & Hsub & Hall).
      exists (path2 :: added). split_and!.
      * f_equal; [by rewrite <-app_assoc|set_solver].
      * by constructor.
      * intros p [->|Hp]%elem_of_cons.
        { split; [done|]. exists h2. split; [left|done]. }
        destruct (Hall p Hp) as (Hn & h & ? & ?).
        split; [set_solver|]. exists h. split; [by right|done].
    + destruct (IH cur checked) as (added & -> & Hsub & Hall).
      exists added. split_and!; [done|by constructor|].
      intros p Hp. destruct (Hall p Hp) as (? & h & ? & ?).
      split; [done|]. exists h. split; [by right|done].
Qed.

Lemma seeded_group_cons x l g : seeded_group l g → seeded_group (x :: l) g.
Proof.
  intros (i & h1 & p1 & ms & Hi & -> & Hne & Hsub & Hall).
  by exists (S i), h1, p1, ms.
Qed.

(** One turn of the outer loop, from a state in which the marked paths are
    the members of the groups found so far. *)
Lemma similar_step_spec h1 path1 rest gs :
  let checked : gset string := list_to_set (mjoin gs) in
  similar_step (h1, path1) rest (gs, checked) = (gs, checked)
  ∨ ∃ g, similar_step (h1, path1) rest (gs, checked)
           = (gs ++ [g], list_to_set (mjoin (gs ++ [g])))
         ∧ seeded_group ((h1, path1) :: rest) g
         ∧ (∀ p, p ∈ g → p ∉ checked)
         ∧ head g = Some path1.
Proof.
  intros checked. unfold similar_step.
  destruct (decide (path1 ∈ checked)) as [Hc|Hc]; [by left|].
  destruct (scan_similar_spec h1 rest [path1] checked)
    as (added & -> & Hsub & Hall).
  destruct added as [|p added].
  - left. simpl. f_equal. set_solver.
  - right. rewrite decide_True by (rewrite length_app; simpl; lia).
    exists (path1 :: p :: added). split_and!.
    + f_equal. rewrite join_app, list_to_set_app_L. simpl.
      rewrite app_nil_r. fold checked. set_solver.
    + exists 0, h1, path1, (p :: added). split_and!; try done.
      intros q Hq. by destruct (Hall q Hq) as (_ & ?).
    + intros q [->|Hq]%elem_of_cons; [done|]. by destruct (Hall q Hq).
    + done.
Qed.

(** The outer loop, from such a state: the groups it adds. *)
Lemma group_similar_spec l gs :
  ∃ gs',
    group_similar l (gs, list_to_set (mjoin gs))
      = (gs ++ gs', list_to_set (mjoin (gs ++ gs')))
    ∧ (∀ g, g ∈ gs' → seeded_group l g)
    ∧ (∀ p, p ∈ mjoin gs' → p ∉ mjoin gs)
    ∧ (NoDup l.*2 → NoDup (mjoin gs')).
Proof.
  revert gs. induction l as [|[h1 path1] rest IH]; intros gs.
  - exists []. simpl. rewrite app_nil_r. split_and!; [done| | |constructor].
    + by intros g ?%elem_of_nil.
    + by intros p ?%elem_of_nil.
  - cbn [group_similar].
    destruct (similar_step_spec h1 path1 rest gs)
      as [->|(g & -> & Hg & Hfresh & Hhd)].
    + destruct (IH gs) as (gs' & -> & Hall & Hdisj & Hnd).
      exists gs'. split_and!; [done| |done|].
      * intros g Hg. by apply seeded_group_cons, Hall.
      * intros [_ ?]%NoDup_cons. auto.
    + destruct (IH (gs ++ [g])) as (gs' & -> & Hall & Hdisj & Hnd).
      exists (g :: gs'). split_and!.
      * by rewrite <-app_assoc.
      * intros g' [->|Hg']%elem_of_cons; [done|].
        by apply seeded_group_cons, Hall.
      * simpl. intros p [Hp|Hp]%elem_of_app.
        { specialize (Hfresh p Hp). set_solver. }
        specialize (Hdisj p Hp). rewrite join_app in Hdisj. set_solver.
      * intros Hnd'. simpl. apply NoDup_app. split_and!.
        { destruct Hg as (i & h & p1 & ms & Hi & -> & _ & Hsub & _).
          apply (sublist_NoDup _ ((h1, path1) :: rest).*2); [done|].
          rewrite <-(take_drop_middle _ _ _ Hi), fmap_app, fmap_cons.
          apply sublist_inserts_l. simpl. by constructor. }
        { intros p Hp Hp'. specialize (Hdisj p Hp').
          rewrite join_app in Hdisj. simpl in Hdisj. set_solver. }
        { apply Hnd. by apply NoDup_cons in Hnd' as [_ ?]. }
Qed.

Lemma similar_groups_of_spec l :
  (∀ g, g ∈ similar_groups_of l → seeded_group l g)
  ∧ (NoDup l.*2 → NoDup (mjoin (similar_groups_of l))).
Proof.
  unfold similar_groups_of.
  destruct (group_similar_spec l []) as (gs' & Heq & Hall & _ & Hnd).
  simpl in Heq. rewrite Heq. done.
Qed.

Lemma seeded_group_paths l g p : seeded_group l g → p ∈ g → p ∈ l.*2.
Proof.
  intros (i & h1 & p1 & ms & Hi & -> & _ & Hsub & _) [->|Hp]%elem_of_cons.
  - apply (list_elem_of_fmap_2' snd _ (h1, p1)); [|done].
    by eapply list_elem_of_lookup_2.
  - eapply elem_of_sublist in Hsub; [|done].
    eapply elem_of_sublist; [done|]. apply fmap_sublist, sublist_drop.
Qed.

End clusterer.

(** ** The clusterer against its specification *)

Section refinement.
Implicit Types (l rest : list (N * string)) (checked : gset string)
  (assigned : gset nat) (g cur : list string) (gs : list (list string)).

Lemma marks_agree_tail i x rest checked assigned :
  marks_agree i (x :: rest) checked assigned →
  marks_agree (S i) rest checked assigned.
Proof.
  intros Hm j h p Hj. specialize (Hm (S j) h p Hj).
  by replace (S i + j) with (i + S j) by lia.
Qed.

Lemma marks_agree_head i h p rest checked assigned :
  marks_agree i ((h, p) :: rest) checked assigned →
  p ∈ checked ↔ i ∈ assigned.
Proof.
  intros Hm. specialize (Hm 0 h p eq_refl).
  by replace (i + 0) with i in Hm by lia.
Qed.

Lemma scan_refines h1 rest k cur checked assigned :
  NoDup rest.*2 → marks_agree k rest checked assigned →
  ∃ members assigned',
    SpecClusterer.scan threshold h1 k rest assigned = (members, assigned')
    ∧ scan_similar h1 rest cur checked
        = (cur ++ members, list_to_set members ∪ checked)
    ∧ marks_agree k rest (list_to_set members ∪ checked) assigned'
    ∧ members ⊆ rest.*2
    ∧ assigned ⊆ assigned'
    ∧ ∀ n, n ∈ assigned' → n ∈ assigned ∨ k ≤ n.
Proof.
  revert k cur checked assigned.
  induction rest as [|[h2 path2] rest IH]; intros k cur checked assigned Hnd Hm.
  - exists [], assigned. simpl. split_and!; try done.
    + f_equal; [by rewrite app_nil_r|set_solver].
    + intros n ?. by left.
  - rewrite fmap_cons in Hnd. apply NoDup_cons in Hnd as [Hfresh Hnd].
    pose proof (marks_agree_head _ _ _ _ _ _ Hm) as Hhead.
    pose proof (marks_agree_tail _ _ _ _ _ Hm) as Htail.
    assert (∀ j h p, rest !! j = Some (h, p) → p ≠ path2) as Hother.
    { intros j h p Hj ->. apply Hfresh.
      apply (list_elem_of_fmap_2' snd _ (h, path2)); [|done].
      by eapply list_elem_of_lookup_2. }
    simpl. destruct (decide (path2 ∈ checked)) as [Hc|Hc].
    + rewrite decide_True by by apply Hhead.
      destruct (IH (S k) cur checked assigned Hnd Htail)
        as (ms & a' & -> & -> & Hm' & Hsub & Hmono & Hnew).
      exists ms, a'. split_and!; try done.
      * intros [|j] h p Hj.
        { injection Hj as -> ->. replace (k + 0) with k by lia.
          split; [intros _; apply Hmono; by apply Hhead|set_solver]. }
        replace (k + S j) with (S k + j) by lia. exact (Hm' j h p Hj).
      * set_solver.
      * intros n Hn. destruct (Hnew n Hn); [by left|right; lia].
    + rewrite decide_False by (by rewrite <-Hhead).
      destruct (decide (hamming h1 h2 ≤ threshold)) as [Hd|Hd].
      * destruct (IH (S k) (cur ++ [path2]) ({[path2]} ∪ checked)
                    ({[k]} ∪ assigned) Hnd)
          as (ms & a' & -> & -> & Hm' & Hsub & Hmono & Hnew).
        { intros j h p Hj. specialize (Htail j h p Hj).
          specialize (Hother j h p Hj).
          rewrite !elem_of_union, !elem_of_singleton, Htail.
          split; (intros [?|?]; [|by right]); [done|lia]. }
        exists (path2 :: ms), a'. split_and!.
        -- done.
        -- f_equal; [by rewrite <-app_assoc|set_solver].
        -- intros [|j] h p Hj.
           { injection Hj as -> ->. replace (k + 0) with k by lia.
             split; [intros _; apply Hmono|]; set_solver. }
           replace (k + S j) with (S k + j) by lia.
           rewrite <-(Hm' j h p Hj). set_solver.
        -- set_solver.
        -- set_solver.
        -- intros n Hn. destruct (Hnew n Hn) as [Hn'|?]; [|right; lia].
           apply elem_of_union in Hn' as [->%elem_of_singleton|?];
             [right; lia|by left].
      * destruct (IH (S k) cur checked assigned Hnd Htail)
          as (ms & a' & -> & -> & Hm' & Hsub & Hmono & Hnew).
        exists ms, a'. split_and!; try done.
        -- intros [|j] h p Hj.
           { injection Hj as -> ->. replace (k + 0) with k by lia. split.
             - intros [Hin|?]%elem_of_union; [|done].
               apply elem_of_list_to_set in Hin. by apply Hsub in Hin.
             - intros Hin. destruct (Hnew _ Hin); [|lia]. by apply Hhead in H. }
           replace (k + S j) with (S k + j) by lia. exact (Hm' j h p Hj).
        -- set_solver.
        -- intros n Hn. destruct (Hnew n Hn); [by left|right; lia].
Qed.

Lemma group_similar_refines l i gs checked assigned :
  NoDup l.*2 → marks_agree i l checked assigned →
  (group_similar l (gs, checked)).1
    = gs ++ SpecClusterer.cluster_from threshold i l assigned.
Proof.
  revert i gs checked assigned.
  induction l as [|[h1 path1] rest IH]; intros i gs checked assigned Hnd Hm.
  - simpl. by rewrite app_nil_r.
  - pose proof (marks_agree_head _ _ _ _ _ _ Hm) as Hhead.
    pose proof (marks_agree_tail _ _ _ _ _ Hm) as Htail.
    rewrite fmap_cons in Hnd. apply NoDup_cons in Hnd as [Hfresh Hnd].
    cbn [group_similar SpecClusterer.cluster_from]. unfold similar_step.
    destruct (decide (path1 ∈ checked)) as [Hc|Hc].
    + rewrite decide_True by by apply Hhead. by apply IH.
    + rewrite decide_False by (by rewrite <-Hhead).
      destruct (scan_refines h1 rest (S i) [path1] checked assigned Hnd Htail)
        as (ms & a' & -> & -> & Hm' & Hsub & _ & _).
      destruct ms as [|p ms].
      * simpl. rewrite (IH (S i) gs _ a'); [done..|].
        by rewrite (left_id_L ∅ (∪)) in Hm' |- *.
      * simpl. rewrite (IH (S i) _ _ a'); [by rewrite <-app_assoc|done|].
        intros j h q Hj. rewrite <-(Hm' j h q Hj).
        assert (q ≠ path1); [|set_solver].
        intros ->. apply Hfresh.
        apply (list_elem_of_fmap_2' snd _ (h, path1)); [|done].
        by eapply list_elem_of_lookup_2.
Qed.

Lemma NoDup_concat_disjoint {A} (gs : list (list A)) i j gi gj x :
  NoDup (mjoin gs) → gs !! i = Some gi → gs !! j = Some gj → i ≠ j →
  x ∈ gi → x ∉ gj.
Proof.
  revert i j. induction gs as [|g gs IH]; intros i j Hnd Hi Hj Hij Hxi Hxj.
  { done. }
  simpl in Hnd. apply NoDup_app in Hnd as (_ & Hdisj & Hnd).
  assert (∀ n gn, gs !! n = Some gn → x ∈ gn → x ∈ mjoin gs) as Hin.
  { intros n gn Hn Hx. apply list_elem_of_join. exists gn.
    split; [done|by eapply list_elem_of_lookup_2]. }
  destruct i as [|i], j as [|j]; simplify_eq/=.
  - by apply (Hdisj x Hxi), (Hin j gj).
  - by apply (Hdisj x Hxj), (Hin i gi).
  - apply (IH i j); auto with lia.
Qed.

End refinement.

Section clusterer_run.
Implicit Types (l rest : list (N * string)) (gs : list (list string)).

Lemma group_similar_upto_spec n l gs :
  ∃ gs',
    group_similar_upto n l (gs, list_to_set (mjoin gs))
      = (drop n l, (gs ++ gs', list_to_set (mjoin (gs ++ gs')))).
Proof.
  revert l gs. induction n as [|n IH]; intros l gs.
  - exists []. simpl. by rewrite app_nil_r.
  - destruct l as [|[h1 path1] rest].
    + exists []. simpl. by rewrite app_nil_r.
    + cbn [group_similar_upto drop].
      destruct (similar_step_spec h1 path1 rest gs) as [->|(g & -> & _)].
      * apply IH.
      * destruct (IH rest (gs ++ [g])) as (gs' & ->).
        exists (g :: gs'). by rewrite <-app_assoc.
Qed.

Lemma group_similar_upto_continue n l st :
  group_similar l st
  = group_similar (group_similar_upto n l st).1 (group_similar_upto n l st).2.
Proof.
  revert l st. induction n as [|n IH]; intros l st; [done|].
  destruct l as [|x rest]; [done|]. cbn [group_similar group_similar_upto].
  apply IH.
Qed.

End clusterer_run.

(** C4: on a sequence of pairs with distinct paths, as a walk gives them,
    the clusterer of the code computes what the specification describes:
    pairs in input order, a group for each unassigned pair made of the
    later unassigned pairs within 5 of it, groups of size 1 discarded. The
    groups have two members or more, groups at different places share no
    path, and each member after the first is within 5 of the first. *)
Theorem clusterer_follows_specification (image_hashes : list (N * string)) :
  NoDup image_hashes.*2 →
  let groups := similar_groups_of image_hashes in
  groups = SpecClusterer.cluster 5 image_hashes
  ∧ (∀ g, g ∈ groups → 2 ≤ length g)
  ∧ (∀ i j gi gj, groups !! i = Some gi → groups !! j = Some gj → i ≠ j →
       ∀ p, p ∈ gi → p ∉ gj)
  ∧ (∀ g, g ∈ groups →
       ∃ h1 path1 members,
         g = path1 :: members ∧ (h1, path1) ∈ image_hashes
         ∧ ∀ p, p ∈ members →
             ∃ h, (h, p) ∈ image_hashes ∧ hamming h1 h ≤ 5).
Proof.
  intros Hnd groups.
  destruct (similar_groups_of_spec image_hashes) as [Hseed Hdisj].
  split_and!.
  - unfold groups, similar_groups_of, SpecClusterer.cluster.
    by rewrite (group_similar_refines _ 0 [] ∅ ∅).
  - intros g (i & h1 & p1 & ms & _ & -> & Hne & _)%Hseed.
    destruct ms; [done|]. simpl. lia.
  - intros i j gi gj Hi Hj Hij p. eapply NoDup_concat_disjoint; eauto.
  - intros g (i & h1 & p1 & ms & Hi & -> & _ & _ & Hall)%Hseed.
    exists h1, p1, ms. split_and!; [done|by eapply list_elem_of_lookup_2|].
    intros p Hp. destruct (Hall p Hp) as (h & Hin & Hd).
    exists h. split; [|done]. eapply elem_of_sublist; [done|apply sublist_drop].
Qed.

Lemma clusterer_follows_specification_witness :
  let image_hashes : list (N * string) :=
    [(0%N, "a.png"); (1%N, "b.png"); (255%N, "c.png"); (3%N, "d.png")] in
  NoDup image_hashes.*2
  ∧ similar_groups_of image_hashes = SpecClusterer.cluster 5 image_hashes
  ∧ similar_groups_of image_hashes = [["a.png"; "b.png"; "d.png"]].
Proof.
  intros image_hashes.
  assert (NoDup image_hashes.*2) as Hnd.
  { apply (bool_decide_unpack _). vm_compute. exact I. }
  split; [exact Hnd|]. split.
  - exact (proj1 (clusterer_follows_specification image_hashes Hnd)).
  - vm_compute. reflexivity.
Defined.

(** C10: the members of a group that is emitted come after its seed in the
    input. So, with the distinct paths of a walk, when the loop reaches a
    pair that is not marked and adds no later pair to its group, which is
    then discarded, the path of that pair is in no group of the result. *)
Theorem singleton_seed_in_no_group (image_hashes : list (N * string)) :
  (∀ g, g ∈ similar_groups_of image_hashes → seeded_group image_hashes g)
  ∧ (NoDup image_hashes.*2 →
     ∀ n h path rest gs checked,
       group_similar_upto n image_hashes ([], ∅)
         = ((h, path) :: rest, (gs, checked)) →
       path ∉ checked →
       (scan_similar h rest [path] checked).1 = [path] →
       ∀ g, g ∈ similar_groups_of image_hashes → path ∉ g).
Proof.
  split; [apply similar_groups_of_spec|].
  intros Hnd n h path rest gs checked Hupto Hc Hscan g Hg Hin.
  destruct (group_similar_upto_spec n image_hashes []) as (gs0 & Heq).
  simpl in Heq. rewrite Hupto in Heq. injection Heq as Hdrop -> ->.
  unfold similar_groups_of in Hg.
  rewrite (group_similar_upto_continue n), Hupto in Hg.
  cbn [fst snd group_similar] in Hg. unfold similar_step in Hg.
  rewrite decide_False in Hg by done.
  destruct (scan_similar_spec h rest [path] (list_to_set (mjoin gs0)))
    as (added & Hs & _).
  rewrite Hs in Hscan, Hg. simpl in Hscan.
  injection Hscan as ->. simpl in Hg.
  rewrite (left_id_L ∅ (∪)) in Hg.
  destruct (group_similar_spec rest gs0) as (gs' & Hrest & Hall & _).
  rewrite Hrest in Hg. simpl in Hg.
  apply elem_of_app in Hg as [Hg|Hg].
  - apply Hc, elem_of_list_to_set, list_elem_of_join. by exists g.
  - assert (path ∈ rest.*2) as Hp by (eapply seeded_group_paths; eauto).
    assert (NoDup (drop n image_hashes).*2) as Hnd'.
    { eapply sublist_NoDup; [done|]. apply fmap_sublist, sublist_drop. }
    rewrite <-Hdrop, fmap_cons in Hnd'. by apply NoDup_cons in Hnd' as [? _].
Qed.

Example singleton_seed_example :
  let image_hashes : list (N * string) :=
    [(0%N, "a.png"); (255%N, "b.png"); (254%N, "c.png")] in
  group_similar_upto 0 image_hashes ([], ∅) = (image_hashes, ([], ∅))
  ∧ (scan_similar 0 [(255%N, "b.png"); (254%N, "c.png")] ["a.png"] ∅).1
      = ["a.png"]
  ∧ similar_groups_of image_hashes = [["b.png"; "c.png"]].
Proof. vm_compute. done. Qed.

(** ** Paths of the audit directory *)

Section audit_paths.
Implicit Types (d : dirs) (a b k : string).

(** The separator that [join] puts after [a] depends on [a] alone. *)
Lemma join_relative_uniform a :
  ∃ m, ∀ b, Str.startswith OsPath.sep b = false → OsPath.join a b = a +:+ m +:+ b.
Proof.
  unfold OsPath.join.
  destruct (bool_decide (a = "") || Str.endswith OsPath.sep a).
  - exists "". by intros b ->.
  - exists "/". by intros b ->.
Qed.

Lemma join_inj a b1 b2 :
  Str.startswith OsPath.sep b1 = false → Str.startswith OsPath.sep b2 = false →
  OsPath.join a b1 = OsPath.join a b2 → b1 = b2.
Proof.
  intros H1 H2. destruct (join_relative_uniform a) as [m Hm].
  rewrite !Hm by done. intros Heq.
  by apply (inj (String.app a)), (inj (String.app m)) in Heq.
Qed.

Lemma join_has_prefix a b :
  Str.startswith OsPath.sep b = false → has_prefix a (OsPath.join a b).
Proof.
  intros Hb. destruct (StrFacts.join_relative a b Hb) as [m ->]. by eexists.
Qed.

Lemma has_prefix_trans a b k : has_prefix a b → has_prefix b k → has_prefix a k.
Proof.
  intros [r ->] [r' ->]. exists (r +:+ r'). by rewrite StrFacts.app_assoc.
Qed.

Lemma consolidated_name_relative n rep :
  Str.startswith OsPath.sep (consolidated_name n rep) = false.
Proof.
  unfold consolidated_name.
  destruct (FmtFacts.d05_head n (OsPath.splitext rep).2) as (a & s & Ha & ->).
  simpl. apply bool_decide_eq_false. by intros ->.
Qed.

Lemma consolidated_key_inj d n m rep rep' :
  consolidated_key d n rep = consolidated_key d m rep' → n = m.
Proof.
  intros Heq. apply join_inj in Heq; [|apply consolidated_name_relative..].
  eapply FmtFacts.d05_ext_inj; [..|exact Heq]; apply StrFacts.splitext_is_ext.
Qed.

Lemma consolidated_key_not_index d n rep :
  consolidated_key d n rep ≠ duplicates_index d
  ∧ consolidated_key d n rep ≠ master_file_index d.
Proof.
  unfold consolidated_key, duplicates_index, master_file_index, consolidated_name.
  split; intros Heq; apply join_inj in Heq;
    try done; try apply (consolidated_name_relative n rep);
    destruct (FmtFacts.d05_head n (OsPath.splitext rep).2) as (a & s & Ha & Hs);
    rewrite Hs in Heq; injection Heq as -> _; done.
Qed.

Lemma duplicates_index_not_master d : duplicates_index d ≠ master_file_index d.
Proof. intros Heq. by apply join_inj in Heq. Qed.

Lemma consolidated_key_prefix d n rep :
  has_prefix (consolidated_dir d) (consolidated_key d n rep).
Proof. apply join_has_prefix, consolidated_name_relative. Qed.

Lemma duplicates_index_prefix d :
  has_prefix (consolidated_dir d) (duplicates_index d).
Proof. by apply join_has_prefix. Qed.

Lemma master_file_index_prefix d :
  has_prefix (consolidated_dir d) (master_file_index d).
Proof. by apply join_has_prefix. Qed.

Lemma dirs_of_separate output_base_dir : separate_dirs (dirs_of output_base_dir).
Proof.
  destruct (join_relative_uniform output_base_dir) as [m Hm].
  intros k [r ->]. unfold dirs_of; simpl. rewrite !Hm by done.
  split; intros [r' Heq]; rewrite !StrFacts.app_assoc in Heq;
    apply (inj (String.app output_base_dir)), (inj (String.app m)) in Heq;
    discriminate Heq.
Qed.

End audit_paths.

(** ** Copies into a group directory *)

Section group_copies.
Context `{World}.
Implicit Types (fs : store) (g : list string) (k : string).

Lemma splitext_name_relative suffix filename t :
  (∀ u, Str.startswith OsPath.sep (suffix +:+ u) = false) →
  Str.startswith OsPath.sep filename = false →
  Str.startswith OsPath.sep ((OsPath.splitext filename).1 +:+ suffix +:+ t) = false.
Proof.
  intros Hs Hf. pose proof (StrFacts.splitext_app filename) as Happ.
  destruct (OsPath.splitext filename) as [name ext]. simpl in *.
  destruct name as [|a name]; [apply Hs|].
  rewrite <-Happ in Hf. by rewrite StrFacts.app_cons in Hf |- *.
Qed.

Lemma member_dest_prefix suffix group_dir j filepath fs :
  (∀ u, Str.startswith OsPath.sep (suffix +:+ u) = false) →
  has_prefix group_dir (member_dest suffix group_dir j filepath fs).
Proof.
  intros Hs. unfold member_dest.
  pose proof (StrFacts.mem_startswith _ _ (StrFacts.basename_no_sep filepath)) as Hb.
  destruct (path_exists _ fs); [|by apply join_has_prefix].
  pose proof (splitext_name_relative suffix (OsPath.basename filepath)) as Hn.
  destruct (OsPath.splitext (OsPath.basename filepath)) as [name ext].
  apply join_has_prefix. by apply Hn.
Qed.

Lemma lookup_append_text_ne path text fs k :
  k ≠ path → append_text path text fs !! k = fs !! k.
Proof. intros Hne. unfold append_text. by rewrite lookup_insert_ne. Qed.

Lemma copy_member_frame suffix group_dir j filepath fs fs' k :
  (∀ u, Str.startswith OsPath.sep (suffix +:+ u) = false) →
  copy_member suffix group_dir j filepath fs = Some fs' →
  ¬ has_prefix group_dir k → fs' !! k = fs !! k.
Proof.
  intros Hs Hcopy Hk. unfold copy_member, copy2 in Hcopy.
  destruct (read_bytes filepath) as [data|]; simplify_eq/=.
  rewrite lookup_append_text_ne, lookup_insert_ne; [done|..].
  - intros <-. by apply Hk, member_dest_prefix.
  - intros ->. by apply Hk, join_has_prefix.
Qed.

Lemma copy_members_frame suffix group_dir j g fs fs' k :
  (∀ u, Str.startswith OsPath.sep (suffix +:+ u) = false) →
  copy_members suffix group_dir j g fs = Some fs' →
  ¬ has_prefix group_dir k → fs' !! k = fs !! k.
Proof.
  intros Hs Hcopy Hk. revert j fs Hcopy.
  induction g as [|filepath g IH]; intros j fs Hcopy; simplify_eq/=; [done|].
  destruct (copy_member suffix group_dir j filepath fs) as [fs1|] eqn:H1;
    simplify_eq/=.
  rewrite (IH _ _ Hcopy). by eapply copy_member_frame.
Qed.

(** The copies of readable files raise nothing. *)
Lemma copy_members_total suffix group_dir j g fs :
  (∀ p, p ∈ g → is_Some (read_bytes p)) →
  is_Some (copy_members suffix group_dir j g fs).
Proof.
  revert j fs. induction g as [|filepath g IH]; intros j fs Hg; simpl.
  - by eexists.
  - destruct (Hg filepath) as [data Hdata]; [left|].
    unfold copy_member, copy2. rewrite Hdata. simpl.
    apply IH. intros p Hp. apply Hg. by right.
Qed.

End group_copies.

(** ** Consolidation *)

Section consolidation.
Context `{World}.
Implicit Types (d : dirs) (s : state) (v g : list string)
  (vs gs : list (list string)) (k : string).

Lemma mapping_of_app d c vs ws :
  mapping_of d c (vs ++ ws)
  = mapping_of d c vs ++ mapping_of d (c + length vs) ws.
Proof.
  revert c. induction vs as [|v vs IH]; intros c; simpl.
  - by replace (c + 0) with c by lia.
  - rewrite IH. by replace (S c + length vs) with (c + S (length vs)) by lia.
Qed.

Lemma mapping_of_length d c vs : length (mapping_of d c vs) = length vs.
Proof. revert c. induction vs; intros c; simpl; auto. Qed.

Lemma mapping_of_values d c vs : (mapping_of d c vs).*2 = vs.
Proof. revert c. induction vs as [|v vs IH]; intros c; simpl; [done|]. by rewrite IH. Qed.

Lemma mapping_of_lookup d c vs i :
  mapping_of d c vs !! i
  = (λ v, (consolidated_key d (c + i) (default "" (head v)), v)) <$> vs !! i.
Proof.
  revert c i. induction vs as [|v vs IH]; intros c [|i]; simpl; try done.
  - by replace (c + 0) with c by lia.
  - rewrite IH. by replace (S c + i) with (c + S i) by lia.
Qed.

(** The name numbered [n] is new when the numbers in use are below [n]. *)
Lemma mapping_of_fresh d c vs n rep :
  c + length vs ≤ n → Dict.get (consolidated_key d n rep) (mapping_of d c vs) = None.
Proof.
  revert c. induction vs as [|v vs IH]; intros c Hn; simpl; [done|].
  simpl in Hn. rewrite decide_False.
  - apply IH. lia.
  - intros Heq%consolidated_key_inj. lia.
Qed.

Lemma mapping_of_set d vs v rep :
  head v = Some rep →
  Dict.set (consolidated_key d (S (length vs)) rep) v (mapping_of d 1 vs)
  = mapping_of d 1 (vs ++ [v]).
Proof.
  intros Hv. rewrite DictFacts.set_fresh by (apply mapping_of_fresh; lia).
  rewrite mapping_of_app. simpl. by rewrite Hv.
Qed.

(** One more list consolidated: what both loops do to the state. *)
Lemma consolidated_snoc d vs s v rep h fs' :
  consolidated d vs s →
  head v = Some rep → digest rep = Some h →
  fs' !! consolidated_key d (S (length vs)) rep = read_bytes rep →
  (∀ n rep', n ≤ length vs →
     fs' !! consolidated_key d n rep' = fs s !! consolidated_key d n rep') →
  consolidated d (vs ++ [v])
    {| fs := fs';
       processed_hashes := {[h]} ∪ processed_hashes s;
       file_counter := file_counter s + 1;
       file_mapping :=
         Dict.set (consolidated_key d (file_counter s) rep) v (file_mapping s) |}.
Proof.
  intros (Hmap & Hcnt & Hproc & Hfs) Hv Hd Hnew Hframe.
  split_and!; simpl.
  - rewrite Hmap, Hcnt. by apply mapping_of_set.
  - rewrite Hcnt, length_app. simpl. lia.
  - intros h' [->%elem_of_singleton|Hh']%elem_of_union.
    + exists v. split; [set_solver|]. unfold key_of. by rewrite Hv.
    + destruct (Hproc h' Hh') as (v' & ? & ?). exists v'. split; [set_solver|done].
  - intros i v' Hi. apply lookup_app_Some in Hi as [Hi|[Hlen Hi]].
    + destruct (Hfs i v' Hi) as (rep' & ? & ? & Hc). exists rep'.
      split_and!; [done..|]. rewrite Hframe; [done|].
      apply lookup_lt_Some in Hi. lia.
    + destruct (i - length vs) as [|?] eqn:Hi'; simplify_eq/=.
      exists rep. replace i with (length vs) by lia.
      split_and!; [done|by eapply digest_readable|done].
Qed.

End consolidation.

Section exact_loop.
Context `{World}.
Implicit Types (d : dirs) (s : state) (v g : list string)
  (vs gs : list (list string)) (k : string).

Lemma dup_suffix_relative u : Str.startswith OsPath.sep ("_dup" +:+ u) = false.
Proof. done. Qed.

Lemma similar_suffix_relative u :
  Str.startswith OsPath.sep ("_similar" +:+ u) = false.
Proof. done. Qed.

Lemma process_group_spec d i g s vs rep h :
  separate_dirs d → consolidated d vs s →
  head g = Some rep → digest rep = Some h →
  (∀ p, p ∈ g → is_Some (read_bytes p)) →
  ∃ s',
    process_group d i g s = Some s'
    ∧ consolidated d (vs ++ [g]) s'
    ∧ fs s' !! duplicates_index d
        = Some (default "" (fs s !! duplicates_index d)
                +:+ index_block (S (length vs)) g)
    ∧ ∀ k, ¬ has_prefix (exact_dup_dir d) k → k ≠ duplicates_index d →
           k ≠ consolidated_key d (S (length vs)) rep →
           fs s' !! k = fs s !! k.
Proof.
  intros Hsep Hcons Hg Hd Hread.
  pose proof Hcons as (_ & Hcnt & _).
  unfold process_group. rewrite Hg. simpl.
  unfold digest in Hd. destruct (read_bytes rep) as [data|] eqn:Hdata; simplify_eq/=.
  unfold copy2. rewrite Hdata. simpl.
  set (group_dir := OsPath.join (exact_dup_dir d) ("group_" +:+ Fmt.dec (i + 1))).
  set (ckey := OsPath.join (consolidated_dir d) _).
  assert (ckey = consolidated_key d (S (length vs)) rep) as Hckey.
  { unfold ckey, consolidated_key, consolidated_name. by rewrite Hcnt. }
  set (fs2 := append_text _ _ _).
  destruct (copy_members_total "_dup" group_dir 0 g fs2 Hread) as [fs3 Hfs3].
  rewrite Hfs3. simpl. eexists. split; [done|].
  assert (has_prefix (exact_dup_dir d) group_dir) as Hgd.
  { by apply join_has_prefix. }
  assert (∀ k, ¬ has_prefix (exact_dup_dir d) k → fs3 !! k = fs2 !! k) as Hframe.
  { intros k Hk. eapply copy_members_frame; [apply dup_suffix_relative|done|].
    intros Hp. apply Hk. by eapply has_prefix_trans. }
  assert (∀ k, has_prefix (consolidated_dir d) k → fs3 !! k = fs2 !! k) as Hframe'.
  { intros k Hk. apply Hframe. by apply Hsep. }
  destruct (consolidated_key_not_index d (S (length vs)) rep) as [Hne _].
  split_and!.
  - apply (consolidated_snoc d vs s g rep (md5_hexdigest data)); try done.
    + unfold digest. by rewrite Hdata.
    + rewrite Hframe' by apply consolidated_key_prefix.
      unfold fs2. rewrite lookup_append_text_ne by done.
      rewrite Hckey, Hdata. apply lookup_insert_eq.
    + intros n rep' Hn. rewrite Hframe' by apply consolidated_key_prefix.
      unfold fs2. rewrite lookup_append_text_ne
        by apply consolidated_key_not_index.
      rewrite lookup_insert_ne; [done|]. rewrite Hckey.
      intros Heq%consolidated_key_inj. lia.
  - rewrite Hframe' by apply duplicates_index_prefix.
    unfold fs2, append_text. fold (duplicates_index d).
    rewrite lookup_insert_eq, lookup_insert_ne by (by rewrite Hckey).
    unfold index_block, key_of, digest. rewrite Hg. simpl. rewrite Hdata. simpl.
    by rewrite Hcnt.
  - intros k Hk1 Hk2 Hk3. rewrite Hframe by done.
    unfold fs2. rewrite lookup_append_text_ne by done.
    rewrite lookup_insert_ne; [done|]. by rewrite Hckey.
Qed.

Lemma process_groups_spec d i gs s vs :
  separate_dirs d → consolidated d vs s →
  (∀ g, g ∈ gs → is_Some (key_of g) ∧ ∀ p, p ∈ g → is_Some (read_bytes p)) →
  ∃ s',
    process_groups d i gs s = Some s'
    ∧ consolidated d (vs ++ gs) s'
    ∧ fs s' !! duplicates_index d
        = index_after (fs s !! duplicates_index d) (S (length vs)) gs
    ∧ ∀ k, ¬ has_prefix (exact_dup_dir d) k → k ≠ duplicates_index d →
           (∀ n rep, length vs < n → k ≠ consolidated_key d n rep) →
           fs s' !! k = fs s !! k.
Proof.
  intros Hsep. revert i s vs. induction gs as [|g gs IH]; intros i s vs Hcons Hgs.
  - exists s. rewrite app_nil_r. by simpl.
  - destruct (Hgs g) as [[h Hh] Hread]; [left|].
    unfold key_of in Hh. destruct (head g) as [rep|] eqn:Hg; simplify_eq/=.
    destruct (process_group_spec d i g s vs rep h) as (s1 & -> & Hc1 & Hi1 & Hf1);
      try done.
    simpl. destruct (IH (S i) s1 (vs ++ [g])) as (s2 & -> & Hc2 & Hi2 & Hf2).
    { done. }
    { intros g' Hg'. apply Hgs. by right. }
    exists s2. rewrite <-app_assoc in Hc2. split_and!; [done..| |].
    + rewrite Hi2, Hi1, length_app. simpl.
      by replace (S (length vs + 1)) with (S (S (length vs))) by lia.
    + intros k Hk1 Hk2 Hk3. rewrite Hf2, Hf1; try done.
      * apply Hk3. lia.
      * intros n rep' Hn. apply Hk3. rewrite length_app in Hn. lia.
Qed.

Lemma index_after_Some old c gs :
  index_after (Some old) c gs = Some (old +:+ index_blocks c gs).
Proof.
  revert old c. induction gs as [|g gs IH]; intros old c; simpl.
  - by rewrite StrFacts.app_nil_r.
  - by rewrite IH, StrFacts.app_assoc.
Qed.

End exact_loop.

Section uniques_loop.
Context `{World}.
Implicit Types (d : dirs) (s : state) (v g : list string)
  (vs gs : list (list string)) (k : string) (es : list (string * list string)).

Lemma singles_of_cons k v es :
  singles_of ((k, v) :: es)
  = if decide (length v = 1) then v :: singles_of es else singles_of es.
Proof. unfold singles_of. by rewrite fmap_cons, filter_cons. Qed.

Lemma copy_uniques_spec d es s vs :
  consolidated d vs s →
  (∀ k v, (k, v) ∈ es → key_of v = Some k) →
  NoDup (key_of <$> (vs ++ singles_of es)) →
  ∃ s',
    copy_uniques d es s = Some s'
    ∧ consolidated d (vs ++ singles_of es) s'
    ∧ ∀ k, (∀ n rep, length vs < n → k ≠ consolidated_key d n rep) →
           fs s' !! k = fs s !! k.
Proof.
  revert s vs. induction es as [|[k v] es IH]; intros s vs Hcons Hkeys Hnd.
  - exists s. unfold singles_of. simpl. rewrite app_nil_r. by simpl.
  - rewrite singles_of_cons in Hnd |- *. simpl. unfold copy_unique.
    assert (∀ k' v', (k', v') ∈ es → key_of v' = Some k') as Hkeys'.
    { intros k' v' Hin. apply Hkeys. by right. }
    destruct (decide (length v = 1)) as [Hlen|Hlen].
    + rewrite (bool_decide_eq_true_2 _ Hlen). simpl.
      assert (k ∉ processed_hashes s) as Hfresh.
      { intros Hk. destruct Hcons as (_ & _ & Hproc & _).
        destruct (Hproc k Hk) as (v' & Hv' & Hkv').
        rewrite fmap_app, fmap_cons in Hnd.
        apply NoDup_app in Hnd as (_ & Hdisj & _).
        apply (Hdisj (Some k)).
        - rewrite <-Hkv'. by apply list_elem_of_fmap_2.
        - rewrite (Hkeys k v) by left. left. }
      rewrite (bool_decide_eq_true_2 _ Hfresh). simpl.
      pose proof (Hkeys k v ltac:(left)) as Hkv. unfold key_of in Hkv.
      destruct (head v) as [rep|] eqn:Hv; simplify_eq/=.
      pose proof Hkv as Hd. unfold digest in Hkv.
      destruct (read_bytes rep) as [data|] eqn:Hdata; simplify_eq/=.
      assert (v = [rep]) as -> by (by destruct v as [|? [|??]]; simplify_eq/=).
      unfold copy2. rewrite Hdata. simpl.
      pose proof Hcons as (_ & Hcnt & _).
      set (s1 := {| fs := _ |}).
      assert (consolidated d (vs ++ [[rep]]) s1) as Hc1.
      { apply (consolidated_snoc d vs s [rep] rep (md5_hexdigest data));
          try done.
        - rewrite Hcnt, Hdata. apply lookup_insert_eq.
        - intros n rep' Hn. rewrite lookup_insert_ne; [done|]. rewrite Hcnt.
          intros Heq%consolidated_key_inj. lia. }
      destruct (IH s1 (vs ++ [[rep]])) as (s2 & -> & Hc2 & Hf2); [done..| |].
      { by rewrite <-app_assoc. }
      exists s2. rewrite <-app_assoc in Hc2. split_and!; [done..|].
      intros k' Hk'. rewrite Hf2.
      * unfold s1. simpl. rewrite lookup_insert_ne; [done|].
        rewrite Hcnt. intros Heq. by eapply (Hk' (S (length vs))); [lia|].
      * intros n rep' Hn. apply Hk'. rewrite length_app in Hn. lia.
    + rewrite (bool_decide_eq_false_2 _ Hlen). simpl. by apply IH.
Qed.

End uniques_loop.

(** ** The second pass *)

Section second_pass.
Context `{World}.
Implicit Types (d : dirs) (fs : store) (g : list string)
  (gs : list (list string)) (t : tree) (exact : gset string).

Lemma collect_image_hashes_elem exact t h p :
  (h, p) ∈ collect_image_hashes exact t ↔
  p ∈ walk_paths t ∧ (p ∉ exact)
  ∧ ∃ data, read_bytes p = Some data ∧ phash data = Some h.
Proof.
  unfold collect_image_hashes. rewrite list_elem_of_omap. split.
  - intros (q & Hq & Hf). destruct (decide (q ∈ exact)); [done|].
    destruct (read_bytes q) as [data|] eqn:Hdata; simplify_eq/=.
    destruct (phash data) as [h'|] eqn:Hh; simplify_eq/=.
    split_and!; [done..|]. by exists data.
  - intros (Hp & Hne & data & Hdata & Hh). exists p. split; [done|].
    rewrite decide_False by done. rewrite Hdata. simpl. by rewrite Hh.
Qed.

Lemma collect_image_hashes_sublist exact (l : list string) :
  (omap (λ filepath,
           if decide (filepath ∈ exact) then None
           else data ← read_bytes filepath; h ← phash data; Some (h, filepath))
        l).*2 `sublist_of` l.
Proof.
  induction l as [|p l IH]; simpl; [constructor|].
  destruct (decide (p ∈ exact)); [by constructor|].
  destruct (read_bytes p) as [data|]; simpl; [|by constructor].
  destruct (phash data); simpl; by constructor.
Qed.

Lemma collect_image_hashes_NoDup exact t :
  NoDup (walk_paths t) → NoDup (collect_image_hashes exact t).*2.
Proof.
  intros Hnd. eapply sublist_NoDup; [done|]. apply collect_image_hashes_sublist.
Qed.

Lemma copy_similar_groups_spec d i gs fs :
  (∀ g p, g ∈ gs → p ∈ g → is_Some (read_bytes p)) →
  ∃ fs',
    copy_similar_groups d i gs fs = Some fs'
    ∧ ∀ k, ¬ has_prefix (similar_files_dir d) k → fs' !! k = fs !! k.
Proof.
  revert i fs. induction gs as [|g gs IH]; intros i fs Hread; simpl.
  - by exists fs.
  - set (group_dir := OsPath.join _ _).
    destruct (copy_members_total "_similar" group_dir 0 g fs) as [fs1 Hfs1].
    { intros p Hp. apply (Hread g); [left|done]. }
    rewrite Hfs1. simpl.
    destruct (IH (S i) fs1) as (fs2 & -> & Hf2).
    { intros g' p Hg'. apply Hread. by right. }
    exists fs2. split; [done|]. intros k Hk. rewrite Hf2 by done.
    eapply copy_members_frame; [apply similar_suffix_relative|done|].
    intros Hp. apply Hk. eapply has_prefix_trans; [|done].
    by apply join_has_prefix.
Qed.

Lemma second_pass_spec d t gs fs :
  ∃ fs',
    second_pass d t gs fs
      = Some (fs',
              if has_image_files t then
                let image_hashes :=
                  collect_image_hashes (list_to_set (mjoin gs)) t in
                Some (image_hashes, similar_groups_of image_hashes)
              else None)
    ∧ ∀ k, ¬ has_prefix (similar_files_dir d) k → fs' !! k = fs !! k.
Proof.
  unfold second_pass. destruct (has_image_files t); [|by exists fs].
  set (image_hashes := collect_image_hashes _ t).
  destruct (copy_similar_groups_spec d 0 (similar_groups_of image_hashes) fs)
    as (fs' & -> & Hf).
  - intros g p Hg Hp.
    destruct (similar_groups_of_spec image_hashes) as [Hseed _].
    pose proof (seeded_group_paths _ _ _ (Hseed g Hg) Hp) as Hin.
    apply list_elem_of_fmap in Hin as ([h q] & -> & Hin).
    apply collect_image_hashes_elem in Hin as (_ & _ & data & Hdata & _).
    simpl. by eexists.
  - by exists fs'.
Qed.

End second_pass.

(** ** A run in closed form *)

Section run.
Context `{World}.
Implicit Types (d : dirs) (t : tree) (hashes : list (string * list string)).

Lemma hashes_key_of l hashes skipped k v :
  scan_inv l (hashes, skipped) → (k, v) ∈ hashes → key_of v = Some k.
Proof.
  intros Hinv Hin.
  destruct (hashes_entry_head _ _ _ _ _ Hinv Hin) as (p & Hp & Hd).
  unfold key_of. by rewrite Hp.
Qed.

Lemma hashes_entry_readable l hashes skipped k v p :
  scan_inv l (hashes, skipped) → (k, v) ∈ hashes → p ∈ v →
  is_Some (read_bytes p).
Proof.
  intros Hinv Hin Hp. destruct (hashes_entry _ _ _ _ _ Hinv Hin) as [-> _].
  apply with_digest_elem in Hp as [Hd _]. by eapply digest_readable.
Qed.

Lemma single_elem hashes v :
  v ∈ singles_of hashes ↔ length v = 1 ∧ ∃ k, (k, v) ∈ hashes.
Proof.
  unfold singles_of. rewrite list_elem_of_filter, list_elem_of_fmap.
  split; intros [Hlen Hex]; (split; [done|]).
  - destruct Hex as ([k v'] & -> & Hin). by exists k.
  - destruct Hex as (k & Hin). by exists (k, v).
Qed.

(** The lists consolidated by a run: the exact groups, then the lists of
    one path, each list once and each with a digest of its own. *)
Lemma consolidated_lists_NoDup l hashes skipped :
  scan_inv l (hashes, skipped) →
  NoDup (key_of <$> (exact_dup_groups_of hashes ++ singles_of hashes)).
Proof.
  intros Hinv. pose proof Hinv as (Hnd & _). simpl in Hnd.
  assert (∀ v, v ∈ exact_dup_groups_of hashes ++ singles_of hashes →
               ∃ k, (k, v) ∈ hashes) as Hsrc.
  { intros v [[_ ?]%exact_group_elem|[_ ?]%single_elem]%elem_of_app; done. }
  apply NoDup_fmap_2_strong.
  - intros x y (kx & Hx)%Hsrc (ky & Hy)%Hsrc Heq.
    rewrite (hashes_key_of _ _ _ _ _ Hinv Hx) in Heq.
    rewrite (hashes_key_of _ _ _ _ _ Hinv Hy) in Heq. simplify_eq.
    apply DictFacts.elem_get in Hx, Hy; try done. congruence.
  - apply NoDup_app. split_and!.
    + by eapply exact_groups_NoDup.
    + intros v [Hlen _]%exact_group_elem [Hlen' _]%single_elem. lia.
    + apply NoDup_filter. by eapply hashes_values_NoDup.
Qed.

Lemma initial_state_consolidated d (fs0 : store) : consolidated d [] (initial_state fs0).
Proof.
  split_and!; simpl; done.
Qed.

Lemma organize_duplicates_spec t output_base_dir (fs0 : store) :
  let d := dirs_of output_base_dir in
  let hashes := (find_exact t).1 in
  let groups := exact_dup_groups_of hashes in
  let vs := groups ++ singles_of hashes in
  ∃ o,
    organize_duplicates t output_base_dir fs0 = Some o
    ∧ out_hashes o = hashes
    ∧ out_skipped o = (find_exact t).2
    ∧ out_exact_dup_groups o = groups
    ∧ out_file_mapping o = mapping_of d 1 vs
    ∧ out_file_counter o = S (length vs)
    ∧ out_return o = length vs
    ∧ out_similarity o
        = (if has_image_files t then
             let image_hashes :=
               collect_image_hashes (list_to_set (mjoin groups)) t in
             Some (image_hashes, similar_groups_of image_hashes)
           else None)
    ∧ (∀ i v, vs !! i = Some v →
         ∃ rep, head v = Some rep ∧ is_Some (read_bytes rep)
                ∧ out_fs o !! consolidated_key d (S i) rep = read_bytes rep)
    ∧ out_fs o !! duplicates_index d
        = index_after (fs0 !! duplicates_index d) 1 groups
    ∧ out_fs o !! master_file_index d
        = Some (master_index_text (mapping_of d 1 vs)).
Proof.
  intros d hashes groups vs. subst vs groups hashes.
  pose proof (find_exact_inv t) as Hinv.
  unfold organize_duplicates. fold d.
  destruct (find_exact t) as [hashes skipped]. cbn [fst snd].
  set (groups := exact_dup_groups_of hashes).
  set (vs := groups ++ singles_of hashes).
  pose proof (dirs_of_separate output_base_dir) as Hsep. fold d in Hsep.
  destruct (process_groups_spec d 0 groups (initial_state fs0) [])
    as (s1 & -> & Hc1 & Hi1 & Hf1); [done|apply initial_state_consolidated| |].
  { intros g [_ (k & Hin)]%exact_group_elem. split.
    - rewrite (hashes_key_of _ _ _ _ _ Hinv Hin). by eexists.
    - intros p Hp. by eapply hashes_entry_readable. }
  simpl in Hc1, Hi1, Hf1 |- *.
  destruct (copy_uniques_spec d hashes s1 groups) as (s2 & -> & Hc2 & Hf2);
    [done| |by eapply consolidated_lists_NoDup|].
  { intros k v Hin. by eapply hashes_key_of. }
  fold vs in Hc2. simpl.
  set (fs1 := write_text _ _ _).
  destruct (second_pass_spec d t groups fs1) as (fs2 & -> & Hf3).
  simpl. eexists. split; [done|]. simpl.
  destruct Hc2 as (Hmap & Hcnt & _ & Hfs).
  assert (∀ k, has_prefix (consolidated_dir d) k → fs2 !! k = fs1 !! k) as Hf3'.
  { intros k Hk. apply Hf3. by apply Hsep. }
  split_and!; try done.
  - rewrite Hcnt. simpl. lia.
  - intros i v Hi. destruct (Hfs i v Hi) as (rep & ? & ? & Hc).
    exists rep. split_and!; [done..|].
    rewrite Hf3' by apply consolidated_key_prefix.
    unfold fs1, write_text. rewrite lookup_insert_ne; [done|].
    fold (master_file_index d). intros Heq.
    by apply (consolidated_key_not_index d (S i) rep).
  - rewrite Hf3' by apply duplicates_index_prefix.
    unfold fs1, write_text. fold (master_file_index d).
    rewrite lookup_insert_ne by (intros Heq; by apply (duplicates_index_not_master d)).
    rewrite Hf2, Hi1; [done|].
    intros n rep _. apply not_eq_sym, consolidated_key_not_index.
  - rewrite Hf3' by apply master_file_index_prefix.
    unfold fs1, write_text. fold (master_file_index d).
    by rewrite lookup_insert_eq, Hmap.
Qed.

End run.

(** ** The consolidated index *)

Section consolidated_index.
Context `{World}.

Lemma find_exact_nil t : walk_paths t = [] → find_exact t = ([], []).
Proof. unfold find_exact. by intros ->. Qed.

Lemma mapping_of_keys_NoDup d c vs : NoDup (mapping_of d c vs).*1.
Proof.
  apply NoDup_alt. intros i j k Hi Hj.
  rewrite list_lookup_fmap, mapping_of_lookup in Hi, Hj.
  destruct (vs !! i) as [vi|] eqn:Hvi, (vs !! j) as [vj|] eqn:Hvj;
    simpl in Hi, Hj; try done.
  injection Hi as <-. injection Hj as Hj.
  apply consolidated_key_inj in Hj. lia.
Qed.

End consolidated_index.

(** C3: the run returns; the entry created in place [i] of [file_mapping]
    has the number [1 + i] in its name, so the numbers start at 1 and go
    up by one with no gap and no reuse, and no name is used twice; the
    counter ends at one more than the number of entries and the value
    returned, the counter minus 1, is the number of entries, 0 when the
    tree has no file. *)
Theorem counter_numbers_entries `{World} (t : tree) (output_base_dir : string)
    (fs0 : store) :
  ∃ o,
    organize_duplicates t output_base_dir fs0 = Some o
    ∧ (∀ i k v, out_file_mapping o !! i = Some (k, v) →
         ∃ rep, head v = Some rep
           ∧ k = OsPath.join (consolidated_dir (dirs_of output_base_dir))
                   (Fmt.d05 (1 + i) +:+ (OsPath.splitext rep).2)
           ∧ Fmt.value (Fmt.d05 (1 + i)) = Some (1 + i))
    ∧ NoDup (out_file_mapping o).*1
    ∧ out_file_counter o = 1 + length (out_file_mapping o)
    ∧ out_return o = out_file_counter o - 1
    ∧ out_return o = length (out_file_mapping o)
    ∧ (walk_paths t = [] → out_return o = 0).
Proof.
  destruct (organize_duplicates_spec t output_base_dir fs0)
    as (o & Hrun & _ & _ & _ & Hmap & Hcnt & Hret & _ & Hfs & _).
  exists o. split; [done|]. rewrite Hmap, Hcnt, Hret, mapping_of_length.
  split_and!; try done.
  - intros i k v Hi. rewrite mapping_of_lookup in Hi.
    destruct (_ !! i) as [v'|] eqn:Hv; simplify_eq/=.
    destruct (Hfs i v Hv) as (rep & Hrep & _). exists rep.
    rewrite Hrep. split_and!; [done..|]. apply FmtFacts.value_d05.
  - apply mapping_of_keys_NoDup.
  - simpl. lia.
  - intros Hnil. by rewrite (find_exact_nil t Hnil).
Qed.

(** C1, for the files that are read: each file of the walk that the first
    pass could read is in the list of original paths of one entry of
    [file_mapping] and of one only. That list holds the files of the walk with the same digest,
    in the order of the walk; it is the file alone or it is an exact
    group; and the copy under the name of the entry is a copy of the first
    file of the list. *)
Theorem every_read_file_in_one_entry `{World} (t : tree)
    (output_base_dir : string) (fs0 : store) :
  ∃ o,
    organize_duplicates t output_base_dir fs0 = Some o
    ∧ ∀ p, p ∈ walk_paths t → is_Some (read_bytes p) →
        ∃ i k v rep h,
          out_file_mapping o !! i = Some (k, v) ∧ p ∈ v
          ∧ (∀ j k' v', out_file_mapping o !! j = Some (k', v') → p ∈ v' → j = i)
          ∧ digest p = Some h ∧ v = with_digest h (walk_paths t)
          ∧ (v = [p] ∨ v ∈ out_exact_dup_groups o)
          ∧ head v = Some rep
          ∧ is_Some (read_bytes rep)
          ∧ out_fs o !! k = read_bytes rep.
Proof.
  destruct (organize_duplicates_spec t output_base_dir fs0)
    as (o & Hrun & _ & _ & Hgroups & Hmap & _ & _ & _ & Hfs & _).
  exists o. split; [done|]. intros p Hp [data Hdata].
  pose proof (find_exact_inv t) as Hinv.
  destruct (find_exact t) as [hashes skipped]. simpl in *.
  set (l := walk_paths t) in *. set (h := md5_hexdigest data).
  assert (digest p = Some h) as Hd by (unfold digest; by rewrite Hdata).
  set (v := with_digest h l).
  assert ((h, v) ∈ hashes) as Hv by by eapply hashes_has.
  assert (p ∈ v) as Hpv by by apply with_digest_elem.
  set (vs := exact_dup_groups_of hashes ++ singles_of hashes) in *.
  assert (v ∈ vs ∧ (v = [p] ∨ v ∈ exact_dup_groups_of hashes)) as [Hin Hkind].
  { destruct (decide (1 < length v)) as [Hlen|Hlen].
    - assert (v ∈ exact_dup_groups_of hashes).
      { apply exact_group_elem. split; [done|by exists h]. }
      split; [by apply elem_of_app; left|by right].
    - assert (length v = 1) as Hone.
      { destruct v as [|? [|??]]; simpl in *; [|done|lia].
        by apply elem_of_nil in Hpv. }
      split.
      + apply elem_of_app. right. apply single_elem. split; [done|by exists h].
      + left. destruct v as [|q [|??]]; simplify_eq/=.
        by apply list_elem_of_singleton in Hpv as ->. }
  apply list_elem_of_lookup in Hin as [i Hi].
  destruct (Hfs i v Hi) as (rep & Hrep & Hread & Hcopy).
  exists i, (consolidated_key (dirs_of output_base_dir) (S i) rep), v, rep, h.
  split_and!; try done.
  - rewrite Hmap, mapping_of_lookup, Hi. simpl. by rewrite Hrep.
  - intros j k' v' Hj Hpv'. rewrite Hmap, mapping_of_lookup in Hj.
    destruct (vs !! j) as [vj|] eqn:Hvj; simplify_eq/=.
    assert (v' = v) as ->.
    { assert (∃ k, (k, v') ∈ hashes) as [k Hk].
      { apply list_elem_of_lookup_2 in Hvj.
        apply elem_of_app in Hvj as [[_ ?]%exact_group_elem|[_ ?]%single_elem];
          done. }
      destruct (hashes_entry _ _ _ _ _ Hinv Hk) as [-> _].
      apply with_digest_elem in Hpv' as [Hd' _].
      by assert (k = h) as -> by congruence. }
    eapply NoDup_lookup; [|done..].
    eapply (NoDup_fmap_1 key_of). by eapply consolidated_lists_NoDup.
  - by rewrite Hgroups.
Qed.

(** C1 does not hold of a file that cannot be read: it is in no entry. *)
Lemma unread_file_in_no_entry :
  let W : World :=
    {| read_bytes := λ _, None; md5_hexdigest := id; phash := λ _, None |} in
  let t : tree := [("src", ["x.jpg"])] in
  ∃ o, organize_duplicates t "audit" ∅ = Some o
       ∧ ¬ every_file_in_one_entry t o.
Proof.
  intros W t. eexists. split; [vm_compute; reflexivity|].
  intros Hall. destruct (Hall "src/x.jpg") as (i & k & v & Hi & _).
  - vm_compute. left.
  - by destruct i.
Qed.

(** ** Exact groups and similar groups *)

Section partitions.
Context `{World}.

Lemma similar_group_member_hashed (image_hashes : list (N * string)) g p :
  g ∈ similar_groups_of image_hashes → p ∈ g → ∃ h, (h, p) ∈ image_hashes.
Proof.
  intros Hg Hp. destruct (similar_groups_of_spec image_hashes) as [Hseed _].
  pose proof (seeded_group_paths _ _ _ (Hseed g Hg) Hp) as Hin.
  apply list_elem_of_fmap in Hin as ([h q] & -> & Hin). by exists h.
Qed.

Lemma filter_lengths_split (l : list (list string)) :
  (∀ v, v ∈ l → v ≠ []) →
  length (filter (λ v, 1 < length v) l) + length (filter (λ v, length v = 1) l)
  = length l.
Proof.
  induction l as [|v l IH]; intros Hne; [done|].
  rewrite !filter_cons.
  assert (∀ v', v' ∈ l → v' ≠ []) as Hne' by (intros v' Hv'; apply Hne; by right).
  specialize (IH Hne').
  assert (v ≠ []) as Hv by (apply Hne; left).
  destruct v as [|? [|??]]; [done|..]; repeat case_decide; simpl in *; lia.
Qed.

Lemma hashes_length l hashes skipped :
  scan_inv l (hashes, skipped) →
  length (exact_dup_groups_of hashes ++ singles_of hashes)
  = size (list_to_set (omap digest l) : gset string).
Proof.
  intros Hinv. pose proof Hinv as (Hnd & Hget & _). simpl in *.
  rewrite length_app. unfold exact_dup_groups_of, singles_of.
  rewrite filter_lengths_split.
  - rewrite length_fmap, <-(length_fmap fst).
    rewrite <-(size_list_to_set (C := gset string)) by done.
    f_equal. apply set_eq. intros k.
    rewrite !elem_of_list_to_set, list_elem_of_omap.
    split.
    + intros Hk. destruct (Dict.get k hashes) as [v|] eqn:Hv.
      * rewrite Hget in Hv. destruct (with_digest k l) as [|p ?] eqn:Hw; [done|].
        assert (p ∈ with_digest k l) as Hp by (rewrite Hw; left).
        apply with_digest_elem in Hp as [? ?]. by exists p.
      * by apply DictFacts.get_None in Hv.
    + intros (p & Hp & Hd). apply (list_elem_of_fmap_2' fst _ (k, with_digest k l));
        [|done]. by eapply hashes_has.
  - intros v ([k v'] & -> & Hin)%list_elem_of_fmap. simpl.
    by destruct (hashes_entry _ _ _ _ _ Hinv Hin).
Qed.

End partitions.

(** C5: the run returns, and no path of an exact group is among the paths
    the second pass fingerprints, nor in a similar group. *)
Theorem exact_members_in_no_similar_group `{World} (t : tree)
    (output_base_dir : string) (fs0 : store) :
  ∃ o,
    organize_duplicates t output_base_dir fs0 = Some o
    ∧ ∀ g p, g ∈ out_exact_dup_groups o → p ∈ g →
        (∀ h, (h, p) ∉ out_image_hashes o)
        ∧ ∀ sg, sg ∈ out_similar_groups o → p ∉ sg.
Proof.
  destruct (organize_duplicates_spec t output_base_dir fs0)
    as (o & Hrun & _ & _ & Hgroups & _ & _ & _ & Hsim & _).
  exists o. split; [done|]. intros g p Hg Hp. rewrite Hgroups in Hg.
  unfold out_image_hashes, out_similar_groups. rewrite Hsim.
  destruct (has_image_files t);
    [|split; [intros; apply not_elem_of_nil|by intros sg ?%elem_of_nil]].
  simpl.
  assert (∀ h, (h, p) ∉ collect_image_hashes
                          (list_to_set (mjoin (exact_dup_groups_of (find_exact t).1))) t)
    as Hnot.
  { intros h (_ & Hne & _)%collect_image_hashes_elem. apply Hne.
    apply elem_of_list_to_set, list_elem_of_join. by exists g. }
  split; [done|]. intros sg Hsg Hpsg.
  destruct (similar_group_member_hashed _ _ _ Hsg Hpsg) as [h Hh].
  by apply (Hnot h).
Qed.

(** C6: a file of the walk that cannot be read is logged and skipped: it is
    in no list of [hashes], in no exact group, in no entry of
    [file_mapping], it is not fingerprinted and is in no similar group. The
    run returns all the same, and its value is the number of distinct
    digests of the files that were read. *)
Theorem unreadable_file_is_skipped `{World} (t : tree)
    (output_base_dir : string) (fs0 : store) (p : string) :
  p ∈ walk_paths t → read_bytes p = None →
  ∃ o,
    organize_duplicates t output_base_dir fs0 = Some o
    ∧ p ∈ out_skipped o
    ∧ (∀ k v, (k, v) ∈ out_hashes o → p ∉ v)
    ∧ (∀ g, g ∈ out_exact_dup_groups o → p ∉ g)
    ∧ (∀ k v, (k, v) ∈ out_file_mapping o → p ∉ v)
    ∧ (∀ h, (h, p) ∉ out_image_hashes o)
    ∧ (∀ g, g ∈ out_similar_groups o → p ∉ g)
    ∧ out_return o = size (list_to_set (omap digest (walk_paths t)) : gset string).
Proof.
  intros Hp Hread.
  destruct (organize_duplicates_spec t output_base_dir fs0)
    as (o & Hrun & Hhashes & Hskipped & Hgroups & Hmap & _ & Hret & Hsim & _).
  exists o. split; [done|].
  pose proof (find_exact_inv t) as Hinv.
  destruct (find_exact t) as [hashes skipped]. simpl in *.
  assert (∀ k v, (k, v) ∈ hashes → p ∉ v) as Hvalues.
  { intros k v Hin Hpv.
    destruct (hashes_entry_readable _ _ _ _ _ _ Hinv Hin Hpv) as [? ?].
    congruence. }
  assert (∀ h, (h, p) ∉ out_image_hashes o) as Himg.
  { intros h. unfold out_image_hashes. rewrite Hsim.
    destruct (has_image_files t); [|apply not_elem_of_nil]. simpl.
    intros (_ & _ & data & ? & _)%collect_image_hashes_elem. congruence. }
  split_and!.
  - rewrite Hskipped. pose proof Hinv as (_ & _ & Hsk). simpl in Hsk.
    rewrite Hsk. by apply list_elem_of_filter.
  - by rewrite Hhashes.
  - rewrite Hgroups. intros g [_ (k & Hin)]%exact_group_elem. by eapply Hvalues.
  - rewrite Hmap. intros k v Hin.
    apply (list_elem_of_fmap_2 snd) in Hin. rewrite mapping_of_values in Hin.
    simpl in Hin.
    apply elem_of_app in Hin as [[_ (k' & ?)]%exact_group_elem
                                |[_ (k' & ?)]%single_elem]; by eapply Hvalues.
  - done.
  - intros g Hg Hpg. unfold out_similar_groups, out_image_hashes in *.
    rewrite Hsim in Hg, Himg. destruct (has_image_files t); simpl in *.
    + destruct (similar_group_member_hashed _ _ _ Hg Hpg) as [h Hh].
      by apply (Himg h).
    + by apply elem_of_nil in Hg.
  - rewrite Hret. by eapply hashes_length.
Qed.

Lemma unreadable_file_is_skipped_witness :
  "src/gone.png" ∈ walk_paths toy_tree
  ∧ read_bytes (World := toy_world) "src/gone.png" = None
  ∧ ∃ o,
      organize_duplicates (H := toy_world) toy_tree "audit" ∅ = Some o
      ∧ "src/gone.png" ∈ out_skipped o
      ∧ out_return o = 3.
Proof.
  assert ("src/gone.png" ∈ walk_paths toy_tree) as Hin.
  { apply (bool_decide_unpack _). vm_compute. exact I. }
  split; [exact Hin|]. split; [reflexivity|].
  destruct (unreadable_file_is_skipped (H := toy_world) toy_tree "audit" ∅
              "src/gone.png" Hin eq_refl)
    as (o & Hrun & Hsk & _ & _ & _ & _ & _ & Hret).
  exists o. split; [exact Hrun|]. split; [exact Hsk|].
  rewrite Hret. vm_compute. reflexivity.
Defined.

(** ** The index files and the condition of the second pass *)

Lemma has_image_files_iff (t : tree) :
  has_image_files t = true ↔
  ∃ root files file,
    (root, files) ∈ t ∧ file ∈ files
    ∧ Str.lower (OsPath.splitext file).2 ∈ image_extensions.
Proof.
  unfold has_image_files, walk_files. rewrite existsb_exists. split.
  - intros (file & Hin & Hext). apply list_elem_of_In in Hin.
    apply list_elem_of_bind in Hin as ([root files] & Hfile & Hdir).
    apply bool_decide_eq_true in Hext. by exists root, files, file.
  - intros (root & files & file & Hdir & Hfile & Hext). exists file. split.
    + apply list_elem_of_In, list_elem_of_bind. by exists (root, files).
    + by apply bool_decide_eq_true.
Qed.

(** C7: when the audit directory has an index of duplicates, the run leaves
    in it what was there followed by the blocks of its exact groups, which
    do not depend on what was there; the master index is written anew: it
    holds the listing of the entries of this run, the same whatever the
    audit directory held before. *)
Theorem index_appended_master_rewritten `{World} (t : tree)
    (output_base_dir : string) (fs0 : store) (old : string) :
  let d := dirs_of output_base_dir in
  fs0 !! OsPath.join (consolidated_dir d) "duplicates_index.txt" = Some old →
  ∃ o,
    organize_duplicates t output_base_dir fs0 = Some o
    ∧ out_fs o !! OsPath.join (consolidated_dir d) "duplicates_index.txt"
        = Some (old +:+ index_blocks 1 (exact_dup_groups_of (find_exact t).1))
    ∧ out_fs o !! OsPath.join (consolidated_dir d) "master_file_index.txt"
        = Some (master_index_text (out_file_mapping o))
    ∧ ∀ fs0' : store, ∃ o',
        organize_duplicates t output_base_dir fs0' = Some o'
        ∧ out_file_mapping o' = out_file_mapping o
        ∧ out_fs o' !! OsPath.join (consolidated_dir d) "master_file_index.txt"
            = out_fs o !! OsPath.join (consolidated_dir d) "master_file_index.txt".
Proof.
  intros d Hold.
  destruct (organize_duplicates_spec t output_base_dir fs0)
    as (o & Hrun & _ & _ & _ & Hmap & _ & _ & _ & _ & Hidx & Hmaster).
  fold d in Hmap, Hidx, Hmaster. unfold duplicates_index in Hidx.
  unfold master_file_index in Hmaster.
  exists o. split_and!; [done| | |].
  - by rewrite Hidx, Hold, index_after_Some.
  - by rewrite Hmaster, Hmap.
  - intros fs0'.
    destruct (organize_duplicates_spec t output_base_dir fs0')
      as (o' & Hrun' & _ & _ & _ & Hmap' & _ & _ & _ & _ & _ & Hmaster').
    fold d in Hmap', Hmaster'. unfold master_file_index in Hmaster'.
    exists o'. split_and!; [done|congruence|congruence].
Qed.

Lemma index_appended_master_rewritten_witness :
  let fs0 : store :=
    {[ "audit/consolidated_files/duplicates_index.txt" := "File: 00001.png" +:+ nl;
       "audit/consolidated_files/master_file_index.txt" := "stale" ]} in
  ∃ o,
    organize_duplicates (H := toy_world) toy_tree "audit" fs0 = Some o
    ∧ out_fs o !! "audit/consolidated_files/duplicates_index.txt"
        = Some ("File: 00001.png" +:+ nl +:+
                "File: 00001.jpg" +:+ nl +:+ "Hash: md5:IMGA" +:+ nl +:+
                "Duplicates:" +:+ nl +:+ "  - src/a.jpg" +:+ nl +:+
                "  - src/b.jpg" +:+ nl +:+ nl).
Proof.
  intros fs0.
  destruct (index_appended_master_rewritten (H := toy_world) toy_tree "audit"
              fs0 ("File: 00001.png" +:+ nl) eq_refl)
    as (o & Hrun & Hidx & _).
  exists o. split; [exact Hrun|]. exact Hidx.
Defined.

(** C9: the run returns, and it enters the second pass exactly when some
    file name of the walk has, in lower case, one of the seven extensions;
    when there is none, nothing is fingerprinted and there is no similar
    group. *)
Theorem second_pass_condition `{World} (t : tree) (output_base_dir : string)
    (fs0 : store) :
  ∃ o,
    organize_duplicates t output_base_dir fs0 = Some o
    ∧ (is_Some (out_similarity o) ↔
       ∃ root files file,
         (root, files) ∈ t ∧ file ∈ files
         ∧ Str.lower (OsPath.splitext file).2
             ∈ ({[ ".jpg"; ".jpeg"; ".png"; ".gif"; ".bmp"; ".tiff"; ".webp" ]}
                 : gset string))
    ∧ (¬ is_Some (out_similarity o) →
       out_image_hashes o = [] ∧ out_similar_groups o = []).
Proof.
  destruct (organize_duplicates_spec t output_base_dir fs0)
    as (o & Hrun & _ & _ & _ & _ & _ & _ & Hsim & _).
  exists o. split; [done|]. split.
  - rewrite <-(has_image_files_iff t), Hsim.
    destruct (has_image_files t); simpl.
    + split; [done|by eexists].
    + split; [by intros [? ?]|done].
  - unfold out_image_hashes, out_similar_groups.
    destruct (out_similarity o); [|done]. intros []. by eexists.
Qed.

(** C8 on a tree with such names: the third member of a group is renamed
    to the name under which the first was copied, in an exact group and in
    a similar group; in the similar group the copy of the first member is
    lost. *)
Theorem renamed_copy_takes_a_used_name :
  ∃ o,
    organize_duplicates (H := clash_world) clash_tree "audit" ∅ = Some o
    ∧ out_exact_dup_groups o
        = [["src/a/x_dup2.jpg"; "src/b/x.jpg"; "src/c/x.jpg"]]
    ∧ out_fs o !! "audit/exact_duplicates/group_1/original_paths.txt"
        = Some ("x_dup2.jpg => src/a/x_dup2.jpg" +:+ nl +:+
                "x.jpg => src/b/x.jpg" +:+ nl +:+
                "x_dup2.jpg => src/c/x.jpg" +:+ nl)
    ∧ out_similar_groups o
        = [["src/d/y_similar2.jpg"; "src/e/y.jpg"; "src/f/y.jpg"]]
    ∧ out_fs o !! "audit/similar_files/similar_group_1/original_paths.txt"
        = Some ("y_similar2.jpg => src/d/y_similar2.jpg" +:+ nl +:+
                "y.jpg => src/e/y.jpg" +:+ nl +:+
                "y_similar2.jpg => src/f/y.jpg" +:+ nl)
    ∧ read_bytes (World := clash_world) "src/d/y_similar2.jpg" = Some "IMG0"
    ∧ out_fs o !! "audit/similar_files/similar_group_1/y_similar2.jpg"
        = Some "IMG3"
    ∧ map_Forall
        (λ k data, String.prefix "audit/similar_files/" k = true → data ≠ "IMG0")
        (out_fs o).
Proof.
  eexists. split; [vm_compute; reflexivity|].
  split_and!; try (vm_compute; reflexivity).
  apply (bool_decide_unpack _). vm_compute. exact I.
Qed.

(** * Further properties *)

(** ** The distance between fingerprints *)

Lemma popcount_pos_positive (p : positive) : 0 < popcount_pos p.
Proof. induction p; simpl; lia. Qed.

Lemma popcount_zero (n : N) : popcount n = 0 ↔ n = 0%N.
Proof.
  destruct n as [|p]; simpl; [done|].
  pose proof (popcount_pos_positive p). split; [lia|done].
Qed.

Lemma hamming_sym (h1 h2 : N) : hamming h1 h2 = hamming h2 h1.
Proof. unfold hamming. by rewrite N.lxor_comm. Qed.

(** The distance [h1 - h2] of two fingerprints does not depend on their
    order, and it is 0 for equal fingerprints and for no others. *)
Theorem hamming_symmetric_zero_iff_equal (h1 h2 : N) :
  hamming h1 h2 = hamming h2 h1 ∧ (hamming h1 h2 = 0 ↔ h1 = h2).
Proof.
  split; [apply hamming_sym|]. unfold hamming. rewrite popcount_zero. split.
  - apply N.lxor_eq.
  - intros ->. apply N.lxor_nilpotent.
Qed.

(** ** The hashing pass as a whole *)

Section first_pass_whole.
Context `{World}.
Implicit Types (hashes : list (string * list string)) (l v : list string).

Lemma join_values_set_snoc hashes k v p :
  Dict.get k hashes = Some v →
  mjoin (Dict.set k (v ++ [p]) hashes).*2 ≡ₚ mjoin hashes.*2 ++ [p].
Proof.
  induction hashes as [|[k' v'] hashes IH]; simpl; [done|].
  destruct (decide (k' = k)) as [->|Hne].
  - intros [= ->]. simpl. rewrite <-!app_assoc. f_equiv.
    apply Permutation_app_comm.
  - intros Hget. simpl. rewrite <-app_assoc. f_equiv. by apply IH.
Qed.

Lemma join_values_set_fresh hashes k v :
  Dict.get k hashes = None →
  mjoin (Dict.set k v hashes).*2 = mjoin hashes.*2 ++ v.
Proof.
  intros Hget. rewrite DictFacts.set_fresh by done.
  rewrite fmap_app, join_app. simpl. by rewrite app_nil_r.
Qed.

Lemma hash_file_values hashes skipped p :
  mjoin (hash_file (hashes, skipped) p).1.*2
  ≡ₚ mjoin hashes.*2 ++ (match read_bytes p with Some _ => [p] | None => [] end).
Proof.
  unfold hash_file. destruct (read_bytes p) as [data|]; simpl;
    [|by rewrite app_nil_r].
  set (k := md5_hexdigest data). unfold Dict.mem.
  destruct (Dict.get k hashes) as [v|] eqn:Hget.
  - rewrite bool_decide_eq_true_2 by by eexists. rewrite Hget. simpl.
    by apply join_values_set_snoc.
  - rewrite bool_decide_eq_false_2 by by intros [? ?].
    rewrite DictFacts.get_set_eq. simpl.
    rewrite (join_values_set_snoc _ k [] p) by apply DictFacts.get_set_eq.
    rewrite join_values_set_fresh by done. by rewrite app_nil_r.
Qed.

Lemma fold_hash_file_values l :
  mjoin (fold_left hash_file l ([], [])).1.*2
  ≡ₚ filter (λ p, is_Some (read_bytes p)) l.
Proof.
  induction l as [|p l IH] using rev_ind; [done|].
  rewrite fold_left_app. simpl.
  destruct (fold_left hash_file l ([], [])) as [hashes skipped].
  rewrite hash_file_values, filter_app, IH. simpl in *.
  apply Permutation_app_head.
  destruct (read_bytes p) as [data|] eqn:Hp.
  - rewrite filter_cons_True; [done|]. by rewrite Hp.
  - rewrite filter_cons_False; [done|]. rewrite Hp. by intros [? ?].
Qed.

Lemma length_filter_read l :
  length l
  = length (filter (λ p, read_bytes p = None) l)
    + length (filter (λ p, is_Some (read_bytes p)) l).
Proof.
  induction l as [|p l IH]; [done|]. rewrite !filter_cons.
  destruct (read_bytes p) as [data|] eqn:Hp.
  - rewrite decide_False by done. rewrite decide_True by by eexists.
    simpl. lia.
  - rewrite decide_True by done. rewrite decide_False by by intros [? ?].
    simpl. lia.
Qed.

End first_pass_whole.

(** The hashing pass leaves every file of the walk in one place: the
    warnings list the files that could not be read, in the order of the
    walk, and the lists of [hashes] together are a rearrangement of the
    files that were read, under keys that are all different. No file is
    hashed twice and none is dropped. *)
Theorem first_pass_splits_walk `{World} (t : tree) :
  (find_exact t).2 = filter (λ p, read_bytes p = None) (walk_paths t)
  ∧ mjoin (find_exact t).1.*2
      ≡ₚ filter (λ p, is_Some (read_bytes p)) (walk_paths t)
  ∧ NoDup (find_exact t).1.*1
  ∧ length (walk_paths t)
      = length (find_exact t).2 + length (mjoin (find_exact t).1.*2).
Proof.
  pose proof (find_exact_inv t) as (Hnd & _ & Hsk).
  pose proof (fold_hash_file_values (walk_paths t)) as Hperm.
  fold (find_exact t) in Hperm.
  split_and!; [done..|].
  rewrite Hsk, Hperm. apply length_filter_read.
Qed.

(** ** The consolidated set *)

(** The entries of [file_mapping] are the exact groups, in their order,
    followed by the lists of [hashes] that hold one path, in the order of
    [hashes]: the copy numbered [1 + i] stands for the group whose
    directory is [group_(1 + i)]. *)
Theorem entries_are_groups_then_singles `{World} (t : tree)
    (output_base_dir : string) (fs0 : store) :
  ∃ o,
    organize_duplicates t output_base_dir fs0 = Some o
    ∧ (out_file_mapping o).*2
        = out_exact_dup_groups o
          ++ filter (λ paths, length paths = 1) (out_hashes o).*2
    ∧ ∀ i g, out_exact_dup_groups o !! i = Some g →
        ∃ first_file,
          head g = Some first_file
          ∧ out_file_mapping o !! i
              = Some (OsPath.join (consolidated_dir (dirs_of output_base_dir))
                        (Fmt.d05 (1 + i) +:+ (OsPath.splitext first_file).2),
                      g).
Proof.
  destruct (organize_duplicates_spec t output_base_dir fs0)
    as (o & Hrun & Hhashes & _ & Hgroups & Hmap & _ & _ & _ & Hfs & _).
  exists o. split; [done|]. rewrite Hmap, Hgroups, Hhashes.
  split; [apply mapping_of_values|].
  intros i g Hi.
  assert ((exact_dup_groups_of (find_exact t).1 ++ singles_of (find_exact t).1)
            !! i = Some g) as Hi' by by apply lookup_app_l_Some.
  destruct (Hfs i g Hi') as (rep & Hrep & _). exists rep. split; [done|].
  rewrite mapping_of_lookup, Hi'. simpl. by rewrite Hrep.
Qed.

(** Two entries of [file_mapping] never stand for the same content: the
    files copied under their names are there, and their digests differ. *)
Theorem entries_have_distinct_digests `{World} (t : tree)
    (output_base_dir : string) (fs0 : store) :
  ∃ o,
    organize_duplicates t output_base_dir fs0 = Some o
    ∧ ∀ i j ki vi kj vj,
        out_file_mapping o !! i = Some (ki, vi) →
        out_file_mapping o !! j = Some (kj, vj) → i ≠ j →
        ∃ di dj,
          out_fs o !! ki = Some di ∧ out_fs o !! kj = Some dj
          ∧ md5_hexdigest di ≠ md5_hexdigest dj.
Proof.
  destruct (organize_duplicates_spec t output_base_dir fs0)
    as (o & Hrun & _ & _ & _ & Hmap & _ & _ & _ & Hfs & _).
  exists o. split; [done|]. rewrite Hmap.
  pose proof (find_exact_inv t) as Hinv.
  destruct (find_exact t) as [hashes skipped]. simpl in *.
  pose proof (consolidated_lists_NoDup _ _ _ Hinv) as Hnd.
  set (vs := exact_dup_groups_of hashes ++ singles_of hashes) in *.
  assert (∀ n k v, mapping_of (dirs_of output_base_dir) 1 vs !! n = Some (k, v) →
            vs !! n = Some v
            ∧ ∃ rep d, head v = Some rep ∧ read_bytes rep = Some d
                       ∧ out_fs o !! k = Some d) as Hentry.
  { intros n k v Hn. rewrite mapping_of_lookup in Hn.
    destruct (vs !! n) as [v'|] eqn:Hv; simplify_eq/=. split; [done|].
    destruct (Hfs n v Hv) as (rep & Hrep & [d Hd] & Hcopy).
    exists rep, d. rewrite Hrep. simpl. split_and!; [done..|congruence]. }
  intros i j ki vi kj vj Hi Hj Hij.
  destruct (Hentry i ki vi Hi) as (Hvi & ri & di & Hri & Hdi & Hci).
  destruct (Hentry j kj vj Hj) as (Hvj & rj & dj & Hrj & Hdj & Hcj).
  exists di, dj. split_and!; [done..|]. intros Heq. apply Hij.
  eapply NoDup_lookup; [exact Hnd|..].
  - rewrite list_lookup_fmap, Hvi. done.
  - rewrite list_lookup_fmap, Hvj. simpl. unfold key_of, digest.
    rewrite Hri, Hrj. simpl. rewrite Hdi, Hdj. simpl. congruence.
Qed.

(** A member of a similar group is a file whose digest no other file of
    the walk has: it has an entry of [file_mapping] of its own, and the
    copy under the name of that entry is a copy of it. *)
Theorem similar_members_are_single_entries `{World} (t : tree)
    (output_base_dir : string) (fs0 : store) :
  ∃ o,
    organize_duplicates t output_base_dir fs0 = Some o
    ∧ ∀ sg p, sg ∈ out_similar_groups o → p ∈ sg →
        ∃ i k,
          out_file_mapping o !! i = Some (k, [p])
          ∧ is_Some (read_bytes p)
          ∧ out_fs o !! k = read_bytes p.
Proof.
  destruct (organize_duplicates_spec t output_base_dir fs0)
    as (o & Hrun & _ & _ & _ & Hmap & _ & _ & Hsim & Hfs & _).
  exists o. split; [done|]. intros sg p Hsg Hp.
  unfold out_similar_groups in Hsg. rewrite Hsim in Hsg.
  destruct (has_image_files t); [|by apply elem_of_nil in Hsg]. simpl in Hsg.
  destruct (similar_group_member_hashed _ _ _ Hsg Hp) as [h Hh].
  apply collect_image_hashes_elem in Hh as (Hwalk & Hnot & data & Hdata & _).
  pose proof (find_exact_inv t) as Hinv.
  destruct (find_exact t) as [hashes skipped]. simpl in *.
  set (k := md5_hexdigest data).
  assert (digest p = Some k) as Hd by (unfold digest; by rewrite Hdata).
  pose proof (hashes_has _ _ _ _ _ Hinv Hwalk Hd) as Hin.
  assert (p ∈ with_digest k (walk_paths t)) as Hpv by by apply with_digest_elem.
  assert (with_digest k (walk_paths t) = [p]) as Hv.
  { destruct (with_digest k (walk_paths t)) as [|q [|q' v]] eqn:Hw.
    - by apply elem_of_nil in Hpv.
    - by apply list_elem_of_singleton in Hpv as ->.
    - destruct Hnot. apply elem_of_list_to_set, list_elem_of_join.
      exists (q :: q' :: v). split; [done|]. apply exact_group_elem.
      split; [simpl; lia|by exists k]. }
  rewrite Hv in Hin.
  assert ([p] ∈ exact_dup_groups_of hashes ++ singles_of hashes) as Hvs.
  { apply elem_of_app. right. apply single_elem. split; [done|by exists k]. }
  apply list_elem_of_lookup in Hvs as [i Hi].
  destruct (Hfs i [p] Hi) as (rep & [= <-] & Hread & Hcopy).
  exists i, (consolidated_key (dirs_of output_base_dir) (S i) p).
  split_and!; [|done..]. by rewrite Hmap, mapping_of_lookup, Hi.
Qed.

(** ** What a run writes *)

Section writes.
Context `{World}.
Implicit Types (d : dirs) (s : state) (g : list string)
  (gs : list (list string)) (k : string) (es : list (string * list string)).

Lemma lookup_insert_is_Some' (m : store) k k' v :
  is_Some (m !! k) → is_Some (<[k' := v]> m !! k).
Proof.
  intros Hk. destruct (decide (k' = k)) as [->|Hne].
  - rewrite lookup_insert_eq. by eexists.
  - by rewrite lookup_insert_ne.
Qed.

Lemma copy_members_keeps suffix group_dir j g (m m' : store) k :
  copy_members suffix group_dir j g m = Some m' →
  is_Some (m !! k) → is_Some (m' !! k).
Proof.
  revert j m. induction g as [|filepath g IH]; intros j m Hcopy Hk;
    simplify_eq/=; [done|].
  unfold copy_member, copy2 in Hcopy.
  destruct (read_bytes filepath) as [data|]; simplify_eq/=.
  eapply IH; [done|]. unfold append_text. by do 2 apply lookup_insert_is_Some'.
Qed.

Lemma process_group_writes d i g s s' :
  process_group d i g s = Some s' →
  file_counter s' = file_counter s + 1
  ∧ (∀ k, is_Some (fs s !! k) → is_Some (fs s' !! k))
  ∧ ∀ k, ¬ has_prefix (exact_dup_dir d) k → k ≠ duplicates_index d →
         (∀ rep, k ≠ consolidated_key d (file_counter s) rep) →
         fs s' !! k = fs s !! k.
Proof.
  unfold process_group, copy2. intros Hrun.
  destruct (head g) as [first_file|]; simplify_eq/=.
  destruct (read_bytes first_file) as [data|]; simplify_eq/=.
  destruct (copy_members _ _ _ _ _) as [fs3|] eqn:Hcopy; simplify_eq/=.
  split_and!; [done| |].
  - intros k Hk. eapply copy_members_keeps; [done|].
    unfold append_text. by do 2 apply lookup_insert_is_Some'.
  - intros k Hk1 Hk2 Hk3.
    rewrite (copy_members_frame _ _ _ _ _ _ k dup_suffix_relative Hcopy).
    + rewrite lookup_append_text_ne by done.
      rewrite lookup_insert_ne; [done|]. apply not_eq_sym, (Hk3 first_file).
    + intros Hp. apply Hk1. eapply has_prefix_trans; [|done].
      by apply join_has_prefix.
Qed.

Lemma process_groups_writes d i gs s s' :
  process_groups d i gs s = Some s' →
  file_counter s' = file_counter s + length gs
  ∧ (∀ k, is_Some (fs s !! k) → is_Some (fs s' !! k))
  ∧ ∀ k, ¬ has_prefix (exact_dup_dir d) k → k ≠ duplicates_index d →
         (∀ n rep, file_counter s ≤ n < file_counter s' →
                   k ≠ consolidated_key d n rep) →
         fs s' !! k = fs s !! k.
Proof.
  revert i s. induction gs as [|g gs IH]; intros i s Hrun; simplify_eq/=.
  { split_and!; [lia|done..]. }
  destruct (process_group d i g s) as [s1|] eqn:H1; simplify_eq/=.
  destruct (process_group_writes _ _ _ _ _ H1) as (Hc1 & Hk1 & Hf1).
  destruct (IH _ _ Hrun) as (Hc2 & Hk2 & Hf2).
  split_and!; [lia|auto|].
  intros k Hp Hi Hn. rewrite Hf2, Hf1; try done.
  - intros rep. apply Hn. lia.
  - intros n rep Hrange. apply Hn. lia.
Qed.

Lemma copy_uniques_writes d es s s' :
  copy_uniques d es s = Some s' →
  file_counter s ≤ file_counter s'
  ∧ (∀ k, is_Some (fs s !! k) → is_Some (fs s' !! k))
  ∧ ∀ k, (∀ n rep, file_counter s ≤ n < file_counter s' →
                   k ≠ consolidated_key d n rep) →
         fs s' !! k = fs s !! k.
Proof.
  revert s. induction es as [|[file_hash paths] es IH]; intros s Hrun.
  { injection Hrun as <-. done. }
  cbn [copy_uniques] in Hrun.
  destruct (copy_unique d (file_hash, paths) s) as [s1|] eqn:H1; [|done].
  change (copy_uniques d es s1 = Some s') in Hrun.
  destruct (IH _ Hrun) as (Hc2 & Hk2 & Hf2).
  unfold copy_unique, copy2 in H1.
  destruct (bool_decide (length paths = 1) && _); simplify_eq/=;
    [|done].
  destruct (head paths) as [filepath|]; simplify_eq/=.
  destruct (read_bytes filepath) as [data|]; simplify_eq/=.
  split_and!; [lia| |].
  - intros k Hk. by apply Hk2, lookup_insert_is_Some'.
  - intros k Hn. rewrite Hf2.
    + simpl. rewrite lookup_insert_ne; [done|].
      apply not_eq_sym, (Hn (file_counter s) filepath). lia.
    + intros n rep Hrange. apply Hn. lia.
Qed.

Lemma copy_similar_groups_keeps d i gs (m m' : store) k :
  copy_similar_groups d i gs m = Some m' →
  is_Some (m !! k) → is_Some (m' !! k).
Proof.
  revert i m. induction gs as [|g gs IH]; intros i m Hrun Hk;
    simplify_eq/=; [done|].
  destruct (copy_members _ _ _ _ _) as [m1|] eqn:H1; simplify_eq/=.
  eapply IH; [done|]. by eapply copy_members_keeps.
Qed.

Lemma second_pass_keeps d t gs (m m' : store) sim k :
  second_pass d t gs m = Some (m', sim) →
  is_Some (m !! k) → is_Some (m' !! k).
Proof.
  unfold second_pass. destruct (has_image_files t); [|by intros [= <- _]].
  destruct (copy_similar_groups _ _ _ _) as [m1|] eqn:H1; [|done].
  simpl. intros [= <- _]. by eapply copy_similar_groups_keeps.
Qed.

Lemma dirs_of_exact_similar output_base_dir k :
  has_prefix (exact_dup_dir (dirs_of output_base_dir)) k →
  ¬ has_prefix (similar_files_dir (dirs_of output_base_dir)) k.
Proof.
  destruct (join_relative_uniform output_base_dir) as [m Hm].
  unfold dirs_of; simpl. rewrite !Hm by done.
  intros [r ->] [r' Heq]. rewrite !StrFacts.app_assoc in Heq.
  apply (inj (String.app output_base_dir)), (inj (String.app m)) in Heq.
  discriminate Heq.
Qed.

End writes.

Section run_writes.
Context `{World}.

Lemma organize_duplicates_phases (t : tree) (output_base_dir : string)
    (fs0 : store) (o : outcome) :
  organize_duplicates t output_base_dir fs0 = Some o →
  let d := dirs_of output_base_dir in
  ∃ s1 s2,
    process_groups d 0 (exact_dup_groups_of (find_exact t).1) (initial_state fs0)
      = Some s1
    ∧ copy_uniques d (find_exact t).1 s1 = Some s2
    ∧ second_pass d t (exact_dup_groups_of (find_exact t).1)
        (write_text (master_file_index d) (master_index_text (file_mapping s2))
           (fs s2))
      = Some (out_fs o, out_similarity o)
    ∧ out_file_counter o = file_counter s2
    ∧ out_return o = file_counter s2 - 1.
Proof.
  intros Hrun d. unfold organize_duplicates in Hrun. fold d in Hrun.
  destruct (find_exact t) as [hashes skipped]. cbn [fst].
  destruct (process_groups d 0 _ _) as [s1|] eqn:H1; [|done].
  cbn [mbind option_bind] in Hrun.
  destruct (copy_uniques d hashes s1) as [s2|] eqn:H2; [|done].
  cbn [mbind option_bind] in Hrun.
  fold (master_file_index d) in Hrun.
  destruct (second_pass d t _ _) as [[fs2 sim]|] eqn:H3; [|done].
  cbn [mbind option_bind] in Hrun. injection Hrun as <-.
  by exists s1, s2.
Qed.

End run_writes.

(** A run changes nothing in the audit directory but the files under
    [exact_duplicates] and [similar_files], the two index files, and the
    numbered copies from 1 to the value it returns; a numbered copy of a
    higher number, left by an earlier run, stays as it was. *)
Theorem run_changes_only_its_outputs `{World} (t : tree)
    (output_base_dir : string) (fs0 : store) :
  let d := dirs_of output_base_dir in
  ∃ o,
    organize_duplicates t output_base_dir fs0 = Some o
    ∧ ∀ k,
        ¬ has_prefix (exact_dup_dir d) k →
        ¬ has_prefix (similar_files_dir d) k →
        k ≠ OsPath.join (consolidated_dir d) "duplicates_index.txt" →
        k ≠ OsPath.join (consolidated_dir d) "master_file_index.txt" →
        (∀ n rep, 1 ≤ n ≤ out_return o →
           k ≠ OsPath.join (consolidated_dir d)
                 (Fmt.d05 n +:+ (OsPath.splitext rep).2)) →
        out_fs o !! k = fs0 !! k.
Proof.
  intros d.
  destruct (organize_duplicates_spec t output_base_dir fs0) as (o & Hrun & _).
  exists o. split; [done|].
  destruct (organize_duplicates_phases _ _ _ _ Hrun)
    as (s1 & s2 & H1 & H2 & H3 & _ & Hret). fold d in H1, H2, H3.
  apply process_groups_writes in H1 as (Hc1 & _ & Hf1).
  apply copy_uniques_writes in H2 as (Hc2 & _ & Hf2).
  destruct (second_pass_spec d t (exact_dup_groups_of (find_exact t).1)
              (write_text (master_file_index d)
                 (master_index_text (file_mapping s2)) (fs s2)))
    as (fs2 & H3' & Hf3).
  rewrite H3' in H3. injection H3 as <- _.
  simpl in Hc1. intros k Hk1 Hk2 Hk3 Hk4 Hk5.
  rewrite Hf3 by done. unfold write_text.
  rewrite lookup_insert_ne by (by apply not_eq_sym).
  rewrite Hf2, Hf1; try done.
  - intros n rep Hn. simpl in Hn. apply Hk5. lia.
  - intros n rep Hn. apply Hk5. lia.
Qed.

(** A run removes no file of the audit directory: whatever was there
    before is still there after, changed or not. *)
Theorem run_removes_no_file `{World} (t : tree) (output_base_dir : string)
    (fs0 : store) :
  ∃ o,
    organize_duplicates t output_base_dir fs0 = Some o
    ∧ ∀ k, is_Some (fs0 !! k) → is_Some (out_fs o !! k).
Proof.
  destruct (organize_duplicates_spec t output_base_dir fs0) as (o & Hrun & _).
  exists o. split; [done|].
  destruct (organize_duplicates_phases _ _ _ _ Hrun)
    as (s1 & s2 & H1 & H2 & H3 & _).
  apply process_groups_writes in H1 as (_ & Hk1 & _).
  apply copy_uniques_writes in H2 as (_ & Hk2 & _).
  intros k Hk. eapply second_pass_keeps; [done|].
  unfold write_text. apply lookup_insert_is_Some'. by apply Hk2, Hk1.
Qed.

(** When no two files that were read have the same digest, the run leaves
    the index of duplicates and everything under [exact_duplicates] as
    they were: the index is not even created. *)
Theorem no_duplicates_no_exact_output `{World} (t : tree)
    (output_base_dir : string) (fs0 : store) :
  let d := dirs_of output_base_dir in
  exact_dup_groups_of (find_exact t).1 = [] →
  ∃ o,
    organize_duplicates t output_base_dir fs0 = Some o
    ∧ out_fs o !! OsPath.join (consolidated_dir d) "duplicates_index.txt"
        = fs0 !! OsPath.join (consolidated_dir d) "duplicates_index.txt"
    ∧ ∀ k, has_prefix (exact_dup_dir d) k → out_fs o !! k = fs0 !! k.
Proof.
  intros d Hnone.
  destruct (organize_duplicates_spec t output_base_dir fs0)
    as (o & Hrun & _ & _ & _ & _ & _ & _ & _ & _ & Hidx & _).
  exists o. split; [done|]. split.
  { fold d in Hidx. unfold duplicates_index in Hidx. by rewrite Hidx, Hnone. }
  destruct (organize_duplicates_phases _ _ _ _ Hrun)
    as (s1 & s2 & H1 & H2 & H3 & _). fold d in H1, H2, H3.
  rewrite Hnone in H1, H3. injection H1 as <-.
  apply copy_uniques_writes in H2 as (_ & _ & Hf2).
  destruct (second_pass_spec d t []
              (write_text (master_file_index d)
                 (master_index_text (file_mapping s2)) (fs s2)))
    as (fs2 & H3' & Hf3).
  rewrite H3' in H3. injection H3 as <- _.
  pose proof (dirs_of_separate output_base_dir) as Hsep. fold d in Hsep.
  intros k Hk. rewrite Hf3 by by apply dirs_of_exact_similar.
  unfold write_text. rewrite lookup_insert_ne.
  - rewrite Hf2; [done|]. intros n rep _ ->.
    by destruct (Hsep _ (consolidated_key_prefix d n rep)).
  - intros <-. by destruct (Hsep _ (master_file_index_prefix d)).
Qed.

Lemma no_duplicates_no_exact_output_witness :
  exact_dup_groups_of (find_exact (H := toy_world) plain_tree).1 = []
  ∧ ∃ o,
      organize_duplicates (H := toy_world) plain_tree "audit" ∅ = Some o
      ∧ out_fs o !! "audit/consolidated_files/duplicates_index.txt" = None.
Proof.
  split; [reflexivity|].
  destruct (no_duplicates_no_exact_output (H := toy_world) plain_tree "audit" ∅
              eq_refl) as (o & Hrun & Hidx & _).
  exists o. split; [exact Hrun|]. exact Hidx.
Defined.

(** When no file name of the walk has an image extension, the run leaves
    everything under [similar_files] as it was. *)
Theorem no_image_no_similar_output `{World} (t : tree)
    (output_base_dir : string) (fs0 : store) :
  let d := dirs_of output_base_dir in
  has_image_files t = false →
  ∃ o,
    organize_duplicates t output_base_dir fs0 = Some o
    ∧ ∀ k, has_prefix (similar_files_dir d) k → out_fs o !! k = fs0 !! k.
Proof.
  intros d Hnone.
  destruct (organize_duplicates_spec t output_base_dir fs0) as (o & Hrun & _).
  exists o. split; [done|].
  destruct (organize_duplicates_phases _ _ _ _ Hrun)
    as (s1 & s2 & H1 & H2 & H3 & _). fold d in H1, H2, H3.
  apply process_groups_writes in H1 as (_ & _ & Hf1).
  apply copy_uniques_writes in H2 as (_ & _ & Hf2).
  unfold second_pass in H3. rewrite Hnone in H3. injection H3 as <- _.
  pose proof (dirs_of_separate output_base_dir) as Hsep. fold d in Hsep.
  intros k Hk. unfold write_text. rewrite lookup_insert_ne.
  - rewrite Hf2, Hf1; try done.
    + intros Hp. by apply (dirs_of_exact_similar output_base_dir k).
    + intros ->. by destruct (Hsep _ (duplicates_index_prefix d)).
    + intros n rep _ ->. by destruct (Hsep _ (consolidated_key_prefix d n rep)).
    + intros n rep _ ->. by destruct (Hsep _ (consolidated_key_prefix d n rep)).
  - intros <-. by destruct (Hsep _ (master_file_index_prefix d)).
Qed.

Lemma no_image_no_similar_output_witness :
  has_image_files plain_tree = false
  ∧ ∃ o,
      organize_duplicates (H := toy_world) plain_tree "audit"
        {[ "audit/similar_files/similar_group_1/old.jpg" := "IMGZ" ]} = Some o
      ∧ out_fs o !! "audit/similar_files/similar_group_1/old.jpg" = Some "IMGZ".
Proof.
  split; [reflexivity|].
  destruct (no_image_no_similar_output (H := toy_world) plain_tree "audit"
              {[ "audit/similar_files/similar_group_1/old.jpg" := "IMGZ" ]}
              eq_refl) as (o & Hrun & Hf).
  exists o. split; [exact Hrun|].
  rewrite Hf; [reflexivity|]. by exists "/similar_group_1/old.jpg".
Defined.

(** A second run over the same tree into the audit directory that the first
    left makes the same entries under the same names, with the same copies
    and the same master index, and returns the same value; the index of
    duplicates, if the first run left one, gets the blocks of the exact
    groups once more. *)
Theorem second_run_repeats_the_first `{World} (t : tree)
    (output_base_dir : string) (fs0 : store) :
  let d := dirs_of output_base_dir in
  ∃ o1 o2,
    organize_duplicates t output_base_dir fs0 = Some o1
    ∧ organize_duplicates t output_base_dir (out_fs o1) = Some o2
    ∧ out_file_mapping o2 = out_file_mapping o1
    ∧ out_return o2 = out_return o1
    ∧ (∀ k v, (k, v) ∈ out_file_mapping o1 →
         is_Some (out_fs o1 !! k) ∧ out_fs o2 !! k = out_fs o1 !! k)
    ∧ out_fs o2 !! OsPath.join (consolidated_dir d) "master_file_index.txt"
        = out_fs o1 !! OsPath.join (consolidated_dir d) "master_file_index.txt"
    ∧ ∀ x,
        out_fs o1 !! OsPath.join (consolidated_dir d) "duplicates_index.txt"
          = Some x →
        out_fs o2 !! OsPath.join (consolidated_dir d) "duplicates_index.txt"
          = Some (x +:+ index_blocks 1 (out_exact_dup_groups o1)).
Proof.
  intros d.
  destruct (organize_duplicates_spec t output_base_dir fs0)
    as (o1 & Hrun1 & _ & _ & Hg1 & Hmap1 & _ & Hret1 & _ & Hfs1 & _ & Hm1).
  destruct (organize_duplicates_spec t output_base_dir (out_fs o1))
    as (o2 & Hrun2 & _ & _ & _ & Hmap2 & _ & Hret2 & _ & Hfs2 & Hidx2 & Hm2).
  fold d in Hmap1, Hfs1, Hm1, Hmap2, Hfs2, Hidx2, Hm2.
  exists o1, o2. split_and!; [done|done|congruence|congruence| | |].
  - intros k v Hin. rewrite Hmap1 in Hin.
    apply list_elem_of_lookup in Hin as [i Hi].
    rewrite mapping_of_lookup in Hi.
    destruct (_ !! i) as [v'|] eqn:Hv; simplify_eq/=.
    destruct (Hfs1 i v Hv) as (rep & Hrep & Hread & Hc1).
    destruct (Hfs2 i v Hv) as (rep' & Hrep' & _ & Hc2).
    rewrite Hrep in Hrep' |- *. injection Hrep' as <-. simpl.
    split; congruence.
  - unfold master_file_index in Hm1, Hm2. congruence.
  - intros x Hx. unfold duplicates_index in Hidx2.
    by rewrite Hidx2, Hx, index_after_Some, Hg1.
Qed.

(** ** What the clusterer leaves out *)

Section clusterer_far.
Implicit Types (l pre rest : list (N * string)) (checked : gset string)
  (g cur : list string) (gs : list (list string)).

Lemma scan_similar_marks h1 rest cur checked p :
  p ∈ checked → p ∈ (scan_similar h1 rest cur checked).2.
Proof.
  destruct (scan_similar_spec h1 rest cur checked) as (added & -> & _).
  simpl. set_solver.
Qed.

(** A pair that the inner loop leaves unmarked is farther than the
    threshold from the seed. *)
Lemma scan_similar_leaves_far h1 rest cur checked hr r :
  (hr, r) ∈ rest → r ∉ (scan_similar h1 rest cur checked).2 →
  threshold < hamming h1 hr.
Proof.
  revert cur checked. induction rest as [|[h2 path2] rest IH];
    intros cur checked Hin Hr.
  { by apply elem_of_nil in Hin. }
  simpl in Hr. apply elem_of_cons in Hin as [[= -> ->]|Hin].
  - destruct (decide (path2 ∈ checked)) as [Hc|Hc].
    + destruct Hr. by apply scan_similar_marks.
    + destruct (decide (hamming h1 h2 ≤ threshold)) as [Hd|Hd]; [|lia].
      destruct Hr. apply scan_similar_marks. set_solver.
  - destruct (decide (path2 ∈ checked)); [by eapply IH|].
    destruct (decide (hamming h1 h2 ≤ threshold)); by eapply IH.
Qed.

Lemma pair_of_path l h h' p :
  NoDup l.*2 → (h, p) ∈ l → (h', p) ∈ l → h = h'.
Proof.
  intros Hnd [i Hi]%list_elem_of_lookup [j Hj]%list_elem_of_lookup.
  assert (i = j) as ->; [|congruence].
  eapply NoDup_lookup; [exact Hnd|..]; rewrite list_lookup_fmap.
  - by rewrite Hi.
  - by rewrite Hj.
Qed.

Lemma group_similar_far l pre rest gs :
  l = pre ++ rest → NoDup l.*2 → seeds_far_inv l pre rest gs →
  ∃ gs',
    group_similar rest (gs, list_to_set (mjoin gs))
      = (gs', list_to_set (mjoin gs'))
    ∧ seeds_far_inv l l [] gs'.
Proof.
  intros Hl Hnd. revert pre gs Hl.
  induction rest as [|[h1 path1] rest IH]; intros pre gs Hl Hinv.
  { exists gs. rewrite app_nil_r in Hl. by subst pre. }
  assert (l = (pre ++ [(h1, path1)]) ++ rest) as Hl'
    by by rewrite <-app_assoc.
  assert ((h1, path1) ∈ l) as Hx by (rewrite Hl; set_solver).
  destruct Hinv as (HA & HB & HC & HD).
  cbn [group_similar]. unfold similar_step.
  set (checked := list_to_set (mjoin gs) : gset string) in *.
  destruct (decide (path1 ∈ checked)) as [Hc|Hc].
  - apply (IH (pre ++ [(h1, path1)])); [done|]. fold checked.
    split_and!.
    + intros hq q hr r [Hq|[= -> ->]%list_elem_of_singleton]%elem_of_app
        Hqc Hr Hrc; [|done].
      eapply HA; eauto. by right.
    + intros g s hs hr r Hg Hs Hhs Hr Hrc. eapply HB; eauto. by right.
    + intros g s hs hq q Hg Hs Hhs
        [Hq|[= -> ->]%list_elem_of_singleton]%elem_of_app Hqc; [|done].
      eapply HC; eauto.
    + done.
  - pose proof (scan_similar_leaves_far h1 rest [path1] checked) as Hfar.
    destruct (scan_similar_spec h1 rest [path1] checked)
      as (added & Hscan & _ & Hadded).
    rewrite Hscan in Hfar |- *. simpl in Hfar.
    destruct added as [|a added].
    + simpl in Hfar |- *. rewrite (left_id_L ∅ (∪)).
      rewrite (left_id_L ∅ (∪)) in Hfar.
      apply (IH (pre ++ [(h1, path1)])); [done|]. fold checked.
      split_and!.
      * intros hq q hr r [Hq|[= -> ->]%list_elem_of_singleton]%elem_of_app
          Hqc Hr Hrc; [eapply HA; eauto; by right|by eapply Hfar].
      * intros g s hs hr r Hg Hs Hhs Hr Hrc. eapply HB; eauto. by right.
      * intros g s hs hq q Hg Hs Hhs
          [Hq|[= -> ->]%list_elem_of_singleton]%elem_of_app Hqc;
          [eapply HC; eauto|].
        apply (HB g s hs h1 path1); [done|done|done|left|done].
      * done.
    + rewrite decide_True by (simpl; lia).
      set (g := [path1] ++ a :: added).
      assert (list_to_set (mjoin (gs ++ [g]))
              = ({[path1]} ∪ (list_to_set (a :: added) ∪ checked) : gset string))
        as Hchecked.
      { rewrite join_app, list_to_set_app_L. unfold g. simpl.
        rewrite app_nil_r. fold checked. set_solver. }
      rewrite <-Hchecked.
      apply (IH (pre ++ [(h1, path1)])); [done|].
      assert (∀ q, q ∉ (list_to_set (mjoin (gs ++ [g])) : gset string) →
                (q ∉ checked)
                ∧ (q ∉ (list_to_set (a :: added) ∪ checked : gset string))
                ∧ q ≠ path1) as Hout.
      { intros q. rewrite Hchecked. set_solver. }
      assert (∀ hs, (hs, path1) ∈ l → hs = h1) as Hseed.
      { intros hs Hhs. by eapply pair_of_path. }
      split_and!.
      * intros hq q hr r [Hq|[= -> ->]%list_elem_of_singleton]%elem_of_app
          (Hqc & _ & Hne)%Hout Hr (Hrc & _)%Hout; [|done].
        eapply HA; eauto. by right.
      * intros g' s hs hr r [Hg| ->%list_elem_of_singleton]%elem_of_app
          Hs Hhs Hr (Hrc & Hrd & _)%Hout.
        { eapply HB; eauto. by right. }
        injection Hs as <-. rewrite (Hseed hs Hhs). by eapply Hfar.
      * intros g' s hs hq q [Hg| ->%list_elem_of_singleton]%elem_of_app
          Hs Hhs [Hq|[= -> ->]%list_elem_of_singleton]%elem_of_app
          (Hqc & _ & Hne)%Hout; try done.
        { eapply HC; eauto. }
        injection Hs as <-. rewrite (Hseed hs Hhs), hamming_sym.
        apply (HA hq q h1 path1); [done|done|left|done].
      * intros i j gi gj si sj hi hj Hi Hj Hij Hsi Hsj Hhi Hhj.
        apply lookup_app_Some in Hi as [Hi|[Hleni Hi]];
          apply lookup_app_Some in Hj as [Hj|[Hlenj Hj]].
        -- eapply (HD i j); eauto.
        -- apply list_lookup_singleton_Some in Hj as [_ <-].
           injection Hsj as <-. rewrite (Hseed hj Hhj).
           apply (HB gi si hi h1 path1);
             [by eapply list_elem_of_lookup_2|done|done|left|done].
        -- apply list_lookup_singleton_Some in Hi as [_ <-].
           injection Hsi as <-. rewrite (Hseed hi Hhi), hamming_sym.
           apply (HB gj sj hj h1 path1);
             [by eapply list_elem_of_lookup_2|done|done|left|done].
        -- apply list_lookup_singleton_Some in Hi as [Hi _].
           apply list_lookup_singleton_Some in Hj as [Hj _]. lia.
Qed.

Lemma similar_groups_of_far l :
  NoDup l.*2 → seeds_far_inv l l [] (similar_groups_of l).
Proof.
  intros Hnd. unfold similar_groups_of.
  assert (seeds_far_inv l [] l []) as Hinit.
  { split_and!.
    - by intros hq q hr r ?%elem_of_nil.
    - by intros g s hs hr r ?%elem_of_nil.
    - by intros g s hs hq q ?%elem_of_nil.
    - by intros i j gi gj si sj hi hj ?. }
  destruct (group_similar_far l [] l [] eq_refl Hnd Hinit) as (gs' & Heq & Hinv).
  simpl in Heq. by rewrite Heq.
Qed.

End clusterer_far.

(** With the distinct paths of a walk, an image that ends in no similar
    group is farther than the threshold from the first member of every
    group: no group could have taken it. *)
Theorem ungrouped_images_far_from_seeds (image_hashes : list (N * string))
    (g : list string) (s q : string) (hs hq : N) :
  NoDup image_hashes.*2 →
  g ∈ similar_groups_of image_hashes → head g = Some s →
  (hs, s) ∈ image_hashes → (hq, q) ∈ image_hashes →
  (∀ g', g' ∈ similar_groups_of image_hashes → q ∉ g') →
  5 < hamming hs hq.
Proof.
  intros Hnd Hg Hs Hhs Hhq Hq.
  destruct (similar_groups_of_far image_hashes Hnd) as (_ & _ & HC & _).
  apply (HC g s hs hq q); try done.
  rewrite elem_of_list_to_set, list_elem_of_join.
  intros (g' & Hqg & Hg'). by apply (Hq g').
Qed.

Lemma ungrouped_images_far_from_seeds_witness :
  let image_hashes : list (N * string) :=
    [(0%N, "a.png"); (255%N, "b.png"); (1%N, "c.png")] in
  5 < hamming 0 255.
Proof.
  intros image_hashes.
  apply (ungrouped_images_far_from_seeds image_hashes ["a.png"; "c.png"]
           "a.png" "b.png" 0 255).
  - apply (bool_decide_unpack _). vm_compute. exact I.
  - vm_compute. left.
  - reflexivity.
  - left.
  - right. left.
  - intros g' Hg'. vm_compute in Hg'.
    apply list_elem_of_singleton in Hg' as ->.
    apply (bool_decide_unpack _). vm_compute. exact I.
Defined.

(** With the distinct paths of a walk, the first members of two different
    similar groups are farther apart than the threshold. *)
Theorem seeds_far_apart (image_hashes : list (N * string)) (i j : nat)
    (gi gj : list string) (si sj : string) (hi hj : N) :
  NoDup image_hashes.*2 →
  similar_groups_of image_hashes !! i = Some gi →
  similar_groups_of image_hashes !! j = Some gj → i ≠ j →
  head gi = Some si → head gj = Some sj →
  (hi, si) ∈ image_hashes → (hj, sj) ∈ image_hashes →
  5 < hamming hi hj.
Proof.
  intros Hnd Hi Hj Hij Hsi Hsj Hhi Hhj.
  destruct (similar_groups_of_far image_hashes Hnd) as (_ & _ & _ & HD).
  by apply (HD i j gi gj si sj).
Qed.

Lemma seeds_far_apart_witness :
  let image_hashes : list (N * string) :=
    [(0%N, "a.png"); (255%N, "b.png"); (1%N, "c.png"); (254%N, "d.png")] in
  similar_groups_of image_hashes = [["a.png"; "c.png"]; ["b.png"; "d.png"]]
  ∧ 5 < hamming 0 255.
Proof.
  intros image_hashes. split; [vm_compute; reflexivity|].
  apply (seeds_far_apart image_hashes 0 1 ["a.png"; "c.png"] ["b.png"; "d.png"]
           "a.png" "b.png" 0 255).
  - apply (bool_decide_unpack _). vm_compute. exact I.
  - vm_compute. reflexivity.
  - vm_compute. reflexivity.
  - lia.
  - reflexivity.
  - reflexivity.
  - left.
  - right. left.
Defined.

(** ** Names under a directory *)

Section basename_join.
Implicit Types (s t a b : string) (c : ascii).

Lemma rfind_absent c t : Str.mem c t = false → Str.rfind c t = (-1)%Z.
Proof.
  induction t as [|x t IH]; simpl; [done|].
  intros [Hx Ht]%orb_false_iff. rewrite (IH Ht). simpl.
  apply bool_decide_eq_false in Hx. by rewrite bool_decide_eq_false_2.
Qed.

Lemma rfind_app_absent c s t :
  Str.mem c t = false → Str.rfind c (s +:+ t) = Str.rfind c s.
Proof.
  intros Ht. induction s as [|x s IH]; [by apply rfind_absent|].
  rewrite StrFacts.app_cons. simpl. by rewrite IH.
Qed.

Lemma rfind_upper c s : (Str.rfind c s < Z.of_nat (String.length s))%Z.
Proof.
  induction s as [|x s IH]; simpl String.length; simpl Str.rfind; [lia|].
  repeat case_bool_decide; lia.
Qed.

Lemma drop_app_le (n : nat) s t :
  n ≤ String.length s → Str.drop n (s +:+ t) = Str.drop n s +:+ t.
Proof.
  revert s. induction n as [|n IH]; intros [|x s] Hn.
  - done.
  - done.
  - simpl in Hn. lia.
  - rewrite StrFacts.app_cons. simpl. apply IH. simpl in Hn. lia.
Qed.

Lemma drop_all s : Str.drop (String.length s) s = "".
Proof. induction s; simpl; auto. Qed.

Lemma rfind_endswith c s :
  Str.endswith c s = true → Str.rfind c s = (Z.of_nat (String.length s) - 1)%Z.
Proof.
  induction s as [|x s IH]; [done|]. simpl Str.endswith.
  destruct s as [|y s].
  - intros Hx%bool_decide_eq_true. simpl. by rewrite bool_decide_eq_true_2.
  - intros Hs. specialize (IH Hs).
    change (Str.rfind c (String x (String y s)))
      with (let r := Str.rfind c (String y s) in
            if bool_decide (0 ≤ r)%Z then (r + 1)%Z
            else if bool_decide (x = c) then 0%Z else (-1)%Z).
    simpl String.length in *. cbv zeta. rewrite IH.
    rewrite bool_decide_eq_true_2 by lia. lia.
Qed.

Lemma basename_app a t :
  Str.mem OsPath.sep t = false →
  OsPath.basename (a +:+ t) = OsPath.basename a +:+ t.
Proof.
  intros Ht. unfold OsPath.basename. rewrite rfind_app_absent by done.
  apply drop_app_le.
  pose proof (rfind_upper OsPath.sep a). pose proof (StrFacts.rfind_lower OsPath.sep a).
  lia.
Qed.

Lemma basename_endswith a :
  Str.endswith OsPath.sep a = true → OsPath.basename a = "".
Proof.
  intros Ha. unfold OsPath.basename. rewrite (rfind_endswith _ _ Ha).
  replace (Z.to_nat (Z.of_nat (String.length a) - 1 + 1)) with (String.length a)
    by lia.
  apply drop_all.
Qed.

End basename_join.

(** [os.path.basename(os.path.join(a, b))] is [b] when [b] has no
    separator: the name under which a member is copied into a group
    directory is the name its record prints. *)
Lemma basename_join (a b : string) :
  Str.mem OsPath.sep b = false → OsPath.basename (OsPath.join a b) = b.
Proof.
  intros Hb. unfold OsPath.join.
  rewrite (StrFacts.mem_startswith _ _ Hb).
  destruct (bool_decide (a = "")) eqn:Ha; simpl.
  - apply bool_decide_eq_true in Ha as ->. rewrite basename_app by done. done.
  - destruct (Str.endswith OsPath.sep a) eqn:He.
    + rewrite basename_app, basename_endswith by done. done.
    + rewrite <-StrFacts.app_assoc, basename_app by done.
      rewrite basename_endswith; [done|].
      by rewrite StrFacts.endswith_app.
Qed.

(** ** Members with names of their own *)

Section distinct_names.
Context `{World}.
Implicit Types (g : list string) (k : string).

Lemma member_key_inj group_dir p q :
  OsPath.join group_dir (OsPath.basename p)
  = OsPath.join group_dir (OsPath.basename q) →
  OsPath.basename p = OsPath.basename q.
Proof.
  apply join_inj; apply StrFacts.mem_startswith, StrFacts.basename_no_sep.
Qed.

Lemma member_key_not_record group_dir p :
  OsPath.basename p ≠ "original_paths.txt" →
  OsPath.join group_dir (OsPath.basename p)
  ≠ OsPath.join group_dir "original_paths.txt".
Proof.
  intros Hne Heq. apply Hne. eapply join_inj; [..|exact Heq]; [|done].
  apply StrFacts.mem_startswith, StrFacts.basename_no_sep.
Qed.

End distinct_names.

(** When the members of a group have names that are all different and none
    is [original_paths.txt], and no file of these names is in the group
    directory yet, then no member is renamed: each is copied under its own
    name with its bytes, the record gets one line per member in the order
    of the group after what it held, and nothing else changes. *)
Theorem members_with_distinct_names_copied `{World}
    (suffix group_dir : string) (j : nat) (g : list string) (fs : store) :
  NoDup (OsPath.basename <$> g) →
  Forall (λ p, OsPath.basename p ≠ "original_paths.txt"
               ∧ fs !! OsPath.join group_dir (OsPath.basename p) = None
               ∧ is_Some (read_bytes p)) g →
  ∃ fs',
    copy_members suffix group_dir j g fs = Some fs'
    ∧ (∀ p, p ∈ g →
         fs' !! OsPath.join group_dir (OsPath.basename p) = read_bytes p)
    ∧ fs' !! OsPath.join group_dir "original_paths.txt"
        = match g with
          | [] => fs !! OsPath.join group_dir "original_paths.txt"
          | _ =>
              Some (default "" (fs !! OsPath.join group_dir "original_paths.txt")
                    +:+ Str.concat
                          ((λ p, OsPath.basename p +:+ " => " +:+ p +:+ nl)
                             <$> g))
          end
    ∧ ∀ k, k ≠ OsPath.join group_dir "original_paths.txt" →
           (∀ p, p ∈ g → k ≠ OsPath.join group_dir (OsPath.basename p)) →
           fs' !! k = fs !! k.
Proof.
  set (record := OsPath.join group_dir "original_paths.txt").
  revert j fs. induction g as [|p g IH]; intros j fs Hnd Hall.
  { exists fs. simpl. split_and!; [done| |done|done].
    by intros p ?%elem_of_nil. }
  rewrite fmap_cons in Hnd. apply NoDup_cons in Hnd as [Hp Hnd].
  apply Forall_cons in Hall as [(Hname & Hfree & [data Hdata]) Hall].
  set (dest := OsPath.join group_dir (OsPath.basename p)) in *.
  assert (dest ≠ record) as Hdr by by apply member_key_not_record.
  assert (∀ q, q ∈ g → OsPath.join group_dir (OsPath.basename q) ≠ dest) as Hother.
  { intros q Hq Heq%member_key_inj. apply Hp. rewrite <-Heq.
    by apply list_elem_of_fmap_2. }
  cbn [copy_members]. unfold copy_member, member_dest, path_exists. fold dest.
  rewrite bool_decide_eq_false_2 by (rewrite Hfree; by intros [? ?]).
  unfold copy2. rewrite Hdata. cbn [mbind option_bind].
  assert (OsPath.basename dest = OsPath.basename p) as ->
    by apply basename_join, StrFacts.basename_no_sep.
  fold record.
  set (line := OsPath.basename p +:+ " => " +:+ p +:+ nl).
  set (fs2 := append_text record line (<[dest:=data]> fs)).
  assert (fs2 !! record = Some (default "" (fs !! record) +:+ line)) as Hrec.
  { unfold fs2, append_text. by rewrite lookup_insert_eq, lookup_insert_ne. }
  assert (fs2 !! dest = Some data) as Hdest.
  { unfold fs2. rewrite lookup_append_text_ne by done. apply lookup_insert_eq. }
  destruct (IH (S j) fs2 Hnd) as (fs' & Hrun & Hcopies & Hrecord & Hframe).
  { apply Forall_forall. intros q Hq.
    destruct (proj1 (Forall_forall _ _) Hall q Hq) as (Hqn & Hqf & Hqr).
    split_and!; [done| |done].
    unfold fs2. rewrite lookup_append_text_ne
      by by apply member_key_not_record.
    rewrite lookup_insert_ne; [done|]. apply not_eq_sym. by apply Hother. }
  exists fs'. split_and!; [done| | |].
  - intros q [->|Hq]%elem_of_cons; [|by apply Hcopies].
    fold dest. rewrite Hframe, Hdest, Hdata; [done..|].
    intros q Hq. apply not_eq_sym. by apply Hother.
  - rewrite Hrecord. destruct g as [|q g].
    + rewrite Hrec. simpl. by rewrite StrFacts.app_nil_r.
    + rewrite Hrec. cbn [default id]. rewrite (fmap_cons _ p).
      change (Str.concat (?x :: ?l)) with (x +:+ Str.concat l).
      by rewrite StrFacts.app_assoc.
  - intros k Hk Hmembers. rewrite Hframe.
    + unfold fs2. rewrite lookup_append_text_ne by done.
      rewrite lookup_insert_ne; [done|]. apply not_eq_sym, Hmembers. left.
    + done.
    + intros q Hq. apply Hmembers. by right.
Qed.

Lemma members_with_distinct_names_copied_witness :
  ∃ fs',
    copy_members (H := toy_world) "_dup" "audit/exact_duplicates/group_1" 0
      ["src/a.jpg"; "src/b.jpg"] ∅ = Some fs'
    ∧ fs' !! "audit/exact_duplicates/group_1/original_paths.txt"
        = Some ("a.jpg => src/a.jpg" +:+ nl +:+ "b.jpg => src/b.jpg" +:+ nl).
Proof.
  destruct (members_with_distinct_names_copied (H := toy_world) "_dup"
              "audit/exact_duplicates/group_1" 0 ["src/a.jpg"; "src/b.jpg"] ∅)
    as (fs' & Hrun & _ & Hrecord & _).
  - apply (bool_decide_unpack _). vm_compute. exact I.
  - repeat constructor; try (by eexists); by vm_compute.
  - exists fs'. split; [exact Hrun|]. exact Hrecord.
Defined.

(** ** The uploader: batches and commits *)

Lemma batch_file_operations_Some `{World} (l : list string) :
  Forall (λ p, is_Some (read_bytes p)) l →
  batch_file_operations l = Some (image_operation <$> l).
Proof.
  induction 1 as [|p l [data Hp] _ IH]; [done|].
  cbn [batch_file_operations]. rewrite Hp, IH. cbn.
  unfold image_operation. by rewrite Hp.
Qed.

Lemma batch_file_operations_inv `{World} (l : list string) ops :
  batch_file_operations l = Some ops →
  Forall (λ p, is_Some (read_bytes p)) l.
Proof.
  revert ops. induction l as [|p l IH]; intros ops Hops; [constructor|].
  cbn [batch_file_operations] in Hops.
  destruct (read_bytes p) as [data|] eqn:Hp; [|done].
  destruct (batch_file_operations l) as [ops'|] eqn:Hl; [|done].
  constructor; [by rewrite Hp|by eapply IH].
Qed.

Lemma batch_file_operations_None `{World} (l : list string) p :
  p ∈ l → read_bytes p = None → batch_file_operations l = None.
Proof.
  intros Hin Hp.
  destruct (batch_file_operations l) as [ops|] eqn:Hl; [|done].
  apply batch_file_operations_inv in Hl.
  rewrite Forall_forall in Hl. destruct (Hl p Hin) as [? ?]. congruence.
Qed.

(** The slice the loop takes is the batch of the index. *)
Lemma slice_batch {A} (l : list A) (b i : nat) :
  1 ≤ b →
  slice (Z.of_nat i * Z.of_nat b)
    (Z.min ((Z.of_nat i + 1) * Z.of_nat b) (Z.of_nat (length l))) l
  = take b (drop (i * b) l).
Proof.
  intros Hb. unfold slice, slice_index.
  rewrite !bool_decide_eq_false_2 by lia.
  set (s := Z.to_nat (Z.min (Z.of_nat i * Z.of_nat b) (Z.of_nat (length l)))).
  set (e := Z.to_nat
              (Z.min (Z.min ((Z.of_nat i + 1) * Z.of_nat b)
                        (Z.of_nat (length l)))
                 (Z.of_nat (length l)))).
  destruct (decide (i * b ≤ length l)) as [Hle|Hgt].
  - assert (s = i * b) as -> by lia.
    assert (e - i * b = b `min` (length l - i * b)) as -> by lia.
    rewrite <-take_take. f_equal. apply take_ge. rewrite length_drop. lia.
  - rewrite (drop_ge l (i * b)) by lia.
    rewrite (drop_ge l s) by lia. by rewrite !take_nil.
Qed.

Lemma batches_spec (n : nat) (b : Z) :
  (1 ≤ b)%Z →
  n ≤ batches n b * Z.to_nat b
  ∧ (∀ k, k < batches n b → k * Z.to_nat b < n).
Proof.
  intros Hb. unfold batches.
  pose proof (Z.div_mod (Z.of_nat n + b - 1) b ltac:(lia)) as Hdm.
  pose proof (Z.mod_pos_bound (Z.of_nat n + b - 1) b ltac:(lia)) as Hmod.
  set (q := ((Z.of_nat n + b - 1) `div` b)%Z) in *.
  set (r := ((Z.of_nat n + b - 1) `mod` b)%Z) in *.
  assert (0 ≤ q)%Z by nia.
  split; [nia|]. intros k Hk. nia.
Qed.

Lemma join_batches (l : list string) (b k : nat) :
  mjoin (batch b l <$> seq 0 k) = take (k * b) l.
Proof.
  induction k as [|k IH]; [done|].
  rewrite seq_S, fmap_app, join_app, IH. cbn [fmap list_fmap mjoin list_join].
  rewrite app_nil_r. unfold batch. rewrite take_take_drop. f_equal. lia.
Qed.

Section upload.
Context `{World} (hub : Hub) (image_files : list string).
Context (batch_size : Z) (version_name : option string).

Let total_batches : Z :=
  ((Z.of_nat (length image_files) + batch_size - 1) `div` batch_size)%Z.
Let run := upload_batches hub image_files
             (operations hub (length image_files)) batch_size total_batches
             (default (timestamp hub) version_name).
Let good (i : nat) : Prop :=
  Forall (λ p, is_Some (read_bytes p))
    (batch (Z.to_nat batch_size) image_files i)
  ∧ commit_succeeds hub i = true.

Lemma upload_batches_all indices done :
  (1 ≤ batch_size)%Z →
  Forall good indices →
  run indices done
  = (done ++ (batch_commit hub image_files batch_size version_name <$> indices),
     Some true).
Proof.
  intros Hb Hall. revert done.
  induction Hall as [|i indices [Hread Hcommit] _ IH]; intros done.
  - by rewrite app_nil_r.
  - unfold run in *. cbn [upload_batches].
    replace batch_size with (Z.of_nat (Z.to_nat batch_size)) at 1 2 by lia.
    rewrite slice_batch by lia.
    fold (batch (Z.to_nat batch_size) image_files i).
    rewrite (batch_file_operations_Some _ Hread), Hcommit, IH.
    by rewrite <-app_assoc.
Qed.

Lemma upload_batches_true indices done done' :
  (1 ≤ batch_size)%Z →
  run indices done = (done', Some true) →
  Forall good indices.
Proof.
  intros Hb. revert done. induction indices as [|i indices IH]; intros done.
  { constructor. }
  unfold run in *. cbn [upload_batches].
  replace batch_size with (Z.of_nat (Z.to_nat batch_size)) at 1 2 by lia.
  rewrite slice_batch by lia.
  fold (batch (Z.to_nat batch_size) image_files i).
  destruct (batch_file_operations _) as [ops|] eqn:Hops; [|done].
  destruct (commit_succeeds hub i) eqn:Hcommit; [|done].
  intros Hrun. constructor; [|by eapply IH].
  split; [by eapply batch_file_operations_inv|done].
Qed.

Lemma upload_batches_app pre post done :
  (1 ≤ batch_size)%Z →
  Forall good pre →
  run (pre ++ post) done
  = run post
      (done ++ (batch_commit hub image_files batch_size version_name <$> pre)).
Proof.
  intros Hb Hall. revert done.
  induction Hall as [|j pre [Hread Hcommit] _ IH]; intros done.
  - cbn [app fmap list_fmap]. by rewrite app_nil_r.
  - cbn [app]. unfold run in *. cbn [upload_batches].
    replace batch_size with (Z.of_nat (Z.to_nat batch_size)) at 1 2 by lia.
    rewrite slice_batch by lia.
    fold (batch (Z.to_nat batch_size) image_files j).
    rewrite (batch_file_operations_Some _ Hread), Hcommit, IH.
    cbn [fmap list_fmap]. by rewrite <-app_assoc.
Qed.

(** The loop stops at the first batch with a file that cannot be read,
    and at the first commit that fails. *)
Lemma upload_batches_raises i p post done :
  (1 ≤ batch_size)%Z →
  p ∈ batch (Z.to_nat batch_size) image_files i →
  read_bytes p = None →
  run (i :: post) done = (done, None).
Proof.
  intros Hb Hin Hp. unfold run. cbn [upload_batches].
  replace batch_size with (Z.of_nat (Z.to_nat batch_size)) at 1 2 by lia.
  rewrite slice_batch by lia.
  fold (batch (Z.to_nat batch_size) image_files i).
  by rewrite (batch_file_operations_None _ p).
Qed.

Lemma upload_batches_fails i post done :
  (1 ≤ batch_size)%Z →
  Forall (λ p, is_Some (read_bytes p))
    (batch (Z.to_nat batch_size) image_files i) →
  commit_succeeds hub i = false →
  run (i :: post) done = (done, Some false).
Proof.
  intros Hb Hread Hcommit. unfold run. cbn [upload_batches].
  replace batch_size with (Z.of_nat (Z.to_nat batch_size)) at 1 2 by lia.
  rewrite slice_batch by lia.
  fold (batch (Z.to_nat batch_size) image_files i).
  by rewrite (batch_file_operations_Some _ Hread), Hcommit.
Qed.

End upload.

Lemma upload_extension_iff (ext : string) :
  ext ∈ upload_extensions ↔ ext ∈ image_extensions.
Proof. unfold upload_extensions, image_extensions. set_solver. Qed.

Lemma upload_image_files_elem (t : tree) (p : string) :
  p ∈ upload_image_files t ↔
  ∃ root files file,
    (root, files) ∈ t ∧ file ∈ files ∧ p = OsPath.join root file
    ∧ Str.lower (OsPath.splitext file).2 ∈ image_extensions.
Proof.
  unfold upload_image_files. rewrite list_elem_of_bind. split.
  - intros ([root files] & Hp & Hdir).
    apply list_elem_of_fmap in Hp as (file & -> & Hfile).
    apply list_elem_of_filter in Hfile as [Hext Hfile].
    exists root, files, file. by rewrite <-upload_extension_iff.
  - intros (root & files & file & Hdir & Hfile & -> & Hext).
    exists (root, files). split; [|done].
    apply list_elem_of_fmap_2, list_elem_of_filter.
    by rewrite upload_extension_iff.
Qed.

(** The uploader and the organizer look for images with the same test:
    the uploader finds a file to upload in a tree exactly when
    [has_image_files] holds of it, and the files it takes are files of the
    walk, in the order of the walk. *)
Theorem upload_selection_agrees_with_has_image_files (t : tree) :
  (upload_image_files t ≠ [] ↔ has_image_files t = true)
  ∧ upload_image_files t `sublist_of` walk_paths t.
Proof.
  split.
  - rewrite has_image_files_iff. split.
    + intros Hne. destruct (upload_image_files t) as [|p l] eqn:Hl; [done|].
      assert (p ∈ upload_image_files t) as Hp by (rewrite Hl; left).
      apply upload_image_files_elem in Hp
        as (root & files & file & ? & ? & _ & ?).
      by exists root, files, file.
    + intros (root & files & file & Hdir & Hfile & Hext) Hnil.
      assert (OsPath.join root file ∈ upload_image_files t) as Hp.
      { apply upload_image_files_elem. by exists root, files, file. }
      rewrite Hnil in Hp. by apply elem_of_nil in Hp.
  - unfold upload_image_files, walk_paths.
    induction t as [|[root files] t IH]; [done|].
    cbn [mbind list_bind]. apply sublist_app; [|exact IH].
    apply fmap_sublist, sublist_filter.
Qed.

Lemma upload_to_huggingface_run `{World} (hub : Hub) (t : tree)
    (batch_size : Z) (version_name : option string) tok created :
  hf_token hub = Some tok → tok ≠ "" → ensure_repo hub = Some created →
  upload_image_files t ≠ [] → batch_size ≠ 0%Z →
  let image_files := upload_image_files t in
  let run :=
    upload_batches hub image_files (operations hub (length image_files))
      batch_size
      ((Z.of_nat (length image_files) + batch_size - 1) `div` batch_size)
      (default (timestamp hub) version_name)
      (seq 0 (batches (length image_files) batch_size)) [] in
  upload_to_huggingface hub t batch_size version_name
  = (Remote created run.1, run.2).
Proof.
  intros Htok Hne Hrepo Hfiles Hb. cbn zeta.
  unfold upload_to_huggingface, batches. rewrite Htok, Hrepo.
  destruct tok as [|a tok]; [done|].
  rewrite decide_False by done. rewrite decide_False by done.
  by destruct (upload_batches _ _ _ _ _ _ _ _).
Qed.

Lemma readable_batches `{World} (l : list string) (b : nat) (indices : list nat) :
  Forall (λ p, is_Some (read_bytes p)) l →
  Forall (λ i, Forall (λ p, is_Some (read_bytes p)) (batch b l i)) indices.
Proof.
  intros Hl. apply Forall_forall. intros i _.
  unfold batch. by apply Forall_take, Forall_drop.
Qed.

Lemma batches_cover (l : list string) (b : Z) :
  (1 ≤ b)%Z →
  mjoin (batch (Z.to_nat b) l <$> seq 0 (batches (length l) b)) = l.
Proof.
  intros Hb. rewrite join_batches. apply take_ge.
  by destruct (batches_spec (length l) b Hb).
Qed.

Lemma uploaded_batches `{World} (hub : Hub) (l : list string) (b : Z)
    (version_name : option string) (k : nat) :
  mjoin (snd <$> (batch_commit hub l b version_name <$> seq 0 k))
  = if decide (k = 0) then []
    else operations hub (length l)
         ++ (image_operation <$> take (k * Z.to_nat b) l).
Proof.
  induction k as [|k IH]; [done|].
  rewrite seq_S, !fmap_app, join_app, IH.
  rewrite (decide_False (P := S k = 0)) by done.
  cbn [fmap list_fmap mjoin list_join plus batch_commit snd]. rewrite app_nil_r.
  destruct k as [|k].
  - rewrite !decide_True by done.
    cbn [app]. unfold batch. cbn [Nat.mul drop]. by rewrite Nat.add_0_r.
  - rewrite !decide_False by done.
    cbn [app]. rewrite <-app_assoc, <-fmap_app. do 2 f_equal.
    unfold batch. rewrite take_take_drop. f_equal. lia.
Qed.

Lemma upload_true_inv `{World} (hub : Hub) (t : tree)
    (batch_size : Z) (version_name : option string) :
  (1 ≤ batch_size)%Z →
  let image_files := upload_image_files t in
  (upload_to_huggingface hub t batch_size version_name).2 = Some true →
  (∃ tok created,
     hf_token hub = Some tok ∧ tok ≠ "" ∧ ensure_repo hub = Some created)
  ∧ image_files ≠ []
  ∧ Forall (λ p, is_Some (read_bytes p)) image_files
  ∧ (∀ i, i < batches (length image_files) batch_size →
       commit_succeeds hub i = true).
Proof.
  intros Hb image_files Hrun.
  destruct (hf_token hub) as [tok|] eqn:Htok;
    [|by unfold upload_to_huggingface in Hrun; rewrite Htok in Hrun].
  destruct (decide (tok = "")) as [->|Hne];
    [by unfold upload_to_huggingface in Hrun; rewrite Htok in Hrun|].
  destruct (ensure_repo hub) as [created|] eqn:Hrepo; cycle 1.
  { unfold upload_to_huggingface in Hrun. rewrite Htok, Hrepo in Hrun.
    by destruct tok. }
  destruct (decide (image_files = [])) as [Hnil|Hfiles].
  { unfold upload_to_huggingface in Hrun. rewrite Htok, Hrepo in Hrun.
    fold image_files in Hrun. rewrite decide_True in Hrun by done.
    by destruct tok. }
  rewrite (upload_to_huggingface_run hub t batch_size version_name tok
             created) in Hrun by (done || lia).
  cbn zeta in Hrun. fold image_files in Hrun. cbn [snd] in Hrun.
  destruct (upload_batches _ _ _ _ _ _ _ _) as [done' res] eqn:Hloop.
  cbn [snd] in Hrun. subst res.
  apply upload_batches_true in Hloop; [|done].
  split_and!; [by exists tok, created|done| |].
  - rewrite <-(batches_cover image_files batch_size Hb).
    apply Forall_join, Forall_fmap, Forall_forall. intros i Hi.
    rewrite Forall_forall in Hloop. by destruct (Hloop i Hi).
  - intros i Hi. rewrite Forall_forall in Hloop.
    apply (Hloop i), elem_of_seq. lia.
Qed.

Lemma upload_true_run `{World} (hub : Hub) (t : tree)
    (batch_size : Z) (version_name : option string) tok created :
  (1 ≤ batch_size)%Z →
  let image_files := upload_image_files t in
  hf_token hub = Some tok → tok ≠ "" → ensure_repo hub = Some created →
  image_files ≠ [] →
  Forall (λ p, is_Some (read_bytes p)) image_files →
  (∀ i, i < batches (length image_files) batch_size →
     commit_succeeds hub i = true) →
  upload_to_huggingface hub t batch_size version_name
  = (Remote created
       (batch_commit hub image_files batch_size version_name
          <$> seq 0 (batches (length image_files) batch_size)),
     Some true).
Proof.
  intros Hb image_files Htok Hne Hrepo Hfiles Hread Hcommit.
  rewrite (upload_to_huggingface_run hub t batch_size version_name tok
             created) by (done || lia).
  cbn zeta. fold image_files.
  rewrite upload_batches_all; [done|done|].
  apply Forall_forall. intros i Hi. apply elem_of_seq in Hi. split.
  - unfold batch. by apply Forall_take, Forall_drop.
  - apply Hcommit. lia.
Qed.

(** With a batch size of at least 1, the uploader returns [True] exactly
    when there is a token, the check of the repository lets it go on, it
    finds an image file, every image file can be read and every commit of
    a batch succeeds. *)
Theorem upload_returns_true_iff `{World} (hub : Hub) (t : tree)
    (batch_size : Z) (version_name : option string) :
  (1 ≤ batch_size)%Z →
  let image_files := upload_image_files t in
  (upload_to_huggingface hub t batch_size version_name).2 = Some true ↔
    (∃ tok, hf_token hub = Some tok ∧ tok ≠ "")
    ∧ is_Some (ensure_repo hub)
    ∧ image_files ≠ []
    ∧ Forall (λ p, is_Some (read_bytes p)) image_files
    ∧ (∀ i, i < batches (length image_files) batch_size →
         commit_succeeds hub i = true).
Proof.
  intros Hb image_files. split.
  - intros Hrun.
    destruct (upload_true_inv hub t batch_size version_name Hb Hrun)
      as ((tok & created & Htok & Hne & Hrepo) & Hfiles & Hread & Hcommit).
    split_and!; [by exists tok|by exists created|done|done|done].
  - intros ((tok & Htok & Hne) & [created Hrepo] & Hfiles & Hread & Hcommit).
    by rewrite (upload_true_run hub t batch_size version_name tok created).
Qed.

Lemma upload_returns_true_iff_witness :
  (upload_to_huggingface (H := toy_world) toy_hub readable_tree 2 None).2
  = Some true
  ↔ (∃ tok, hf_token toy_hub = Some tok ∧ tok ≠ "")
    ∧ is_Some (ensure_repo toy_hub)
    ∧ upload_image_files readable_tree ≠ []
    ∧ Forall (λ p, is_Some (read_bytes (World := toy_world) p))
        (upload_image_files readable_tree)
    ∧ (∀ i, i < batches (length (upload_image_files readable_tree)) 2 →
         commit_succeeds toy_hub i = true).
Proof.
  apply (upload_returns_true_iff (H := toy_world) toy_hub readable_tree 2 None).
  lia.
Defined.
